(** * Catt LSP: the diagnostic pass (lexer and syntax validator)

    A shallow embedding of [tokenize] and [validateSyntax], the two passes
    behind the [diagnostic] method of the server, and their properties.

    Conventions of the embedding.
    - A JavaScript string is the list of its UTF-16 code units; a code unit
      is a number of type [N].  [js "..."] turns a literal into that list.
    - JavaScript numbers that count (indices, lines, columns, lengths) are
      [nat]; counters that are decremented ([braceCount], [parenCount])
      are [Z].  No count of the program reaches 2^53.
    - A [while] loop is a [Fixpoint] on a fuel argument; running out of
      fuel is the result [Timeout].  Reading a property of [undefined]
      is the result [TypeError].
    - [tokens[i]] is [nth_error tokens i]: [None] stands for [undefined],
      and also for the guard [i >= tokens.length] that the source writes
      in front of each access. *)

From Stdlib Require Import List NArith ZArith Lia Bool Arith.
From Stdlib Require Import Strings.String Strings.Ascii Numbers.DecimalString.
From Stdlib Require Numbers.DecimalNat Numbers.DecimalFacts.
Import ListNotations.

(** ** Strings *)

Definition codeUnit := N.
Definition jsstring := list codeUnit.

Fixpoint js (s : string) : jsstring :=
  match s with
  | EmptyString => []
  | String a rest => N_of_ascii a :: js rest
  end.

(** [a === b] on strings. *)
Fixpoint str_eqb (a b : jsstring) : bool :=
  match a, b with
  | [], [] => true
  | x :: a', y :: b' => N.eqb x y && str_eqb a' b'
  | _, _ => false
  end.

(** [`${n}`] for a non-negative integer. *)
Definition str_of_nat (n : nat) : jsstring :=
  js (NilEmpty.string_of_uint (Nat.to_uint n)).

(** ** Results of a computation *)

Inductive outcome (A : Type) : Type :=
| Done (a : A)
| TypeError
| Timeout.

Arguments Done {A} a.
Arguments TypeError {A}.
Arguments Timeout {A}.

Definition bind {A B : Type} (m : outcome A) (k : A -> outcome B) : outcome B :=
  match m with
  | Done a => k a
  | TypeError => TypeError
  | Timeout => Timeout
  end.

Notation "x <- m ;; k" := (bind m (fun x => k))
  (at level 61, m at next level, right associativity).
Notation "' p <- m ;; k" := (bind m (fun x => let 'p := x in k))
  (at level 61, p pattern, m at next level, right associativity).

(** ** Data model *)

Module Position.
Record t := mk { line : nat; character : nat }.
End Position.

Module Range.
Record t := mk { start : Position.t; end_ : Position.t }.
End Range.

Module DiagnosticSeverity.
Definition Error : Z := 1.
Definition Warning : Z := 2.
Definition Information : Z := 3.
Definition Hint : Z := 4.
End DiagnosticSeverity.

Module Diagnostic.
Record t := mk {
  range : Range.t;
  severity : Z;
  source : jsstring;
  message : jsstring
}.
End Diagnostic.

Inductive TokenType :=
| KEYWORD | IDENTIFIER | NUMBER | STRING | OPERATOR | PUNCTUATION | UNKNOWN.

Definition TokenType_eqb (a b : TokenType) : bool :=
  match a, b with
  | KEYWORD, KEYWORD | IDENTIFIER, IDENTIFIER | NUMBER, NUMBER
  | STRING, STRING | OPERATOR, OPERATOR | PUNCTUATION, PUNCTUATION
  | UNKNOWN, UNKNOWN => true
  | _, _ => false
  end.

Module Token.
Record t := mk {
  type : TokenType;
  value : jsstring;
  position : Position.t;
  length : nat
}.
End Token.

Definition keywords : list jsstring :=
  map js ["var"; "return"; "if"; "else"; "while"; "for"; "function";
          "true"; "false"; "null"; "meow"; "meowln"]%string.

Definition operators : list jsstring :=
  map js ["+"; "-"; "*"; "/"; "%"; "=="; "!="; "<"; ">"; "&&"; "||"; "!";
          "="; "["; "]"; "("; ")"; "}"; "{"; ";"]%string.

(** [set.has(x)] for a set of strings. *)
Definition has (set : list jsstring) (x : jsstring) : bool :=
  existsb (str_eqb x) set.

(** [set.add(x)]: a JavaScript [Set] keeps insertion order and ignores an
    element it already holds. *)
Definition add (set : list jsstring) (x : jsstring) : list jsstring :=
  if has set x then set else set ++ [x].

Definition createDiagnostic (start end_ : Position.t) (message : jsstring)
    (severity : Z) : Diagnostic.t :=
  Diagnostic.mk (Range.mk start end_) severity (js "Catt LSP") message.

(** ** Character classes: the regular expressions of [tokenize], each applied
    to a string of one code unit *)

(** [/\s/]: the white space and line terminator code points of ECMAScript. *)
Definition isSpace (c : codeUnit) : bool :=
  ((9 <=? c) && (c <=? 13) || (c =? 32) || (c =? 160) || (c =? 5760)
   || (8192 <=? c) && (c <=? 8202) || (c =? 8232) || (c =? 8233)
   || (c =? 8239) || (c =? 8287) || (c =? 12288) || (c =? 65279))%N.

(** [/[0-9]/] *)
Definition isDigit (c : codeUnit) : bool := ((48 <=? c) && (c <=? 57))%N.

(** [/[a-zA-Z_]/] *)
Definition isIdentStart (c : codeUnit) : bool :=
  ((97 <=? c) && (c <=? 122) || (65 <=? c) && (c <=? 90) || (c =? 95))%N.

(** [/[a-zA-Z0-9_]/] *)
Definition isIdentPart (c : codeUnit) : bool :=
  ((97 <=? c) && (c <=? 122) || (65 <=? c) && (c <=? 90)
   || (48 <=? c) && (c <=? 57) || (c =? 95))%N.

Definition newline : codeUnit := 10%N.
Definition quote : codeUnit := 34%N.

(** ** The lexer *)

Module Lexer.

(** The four variables of [tokenize]. *)
Record state := mk {
  current : nat;
  line : nat;
  character : nat;
  tokens : list Token.t
}.

Definition init : state := mk 0 0 0 [].

(** The inner loops of the NUMBER, identifier and STRING rules:
    [while (current < content.length && p(content[current]))
       { value += content[current]; current++; character++; }] *)
Fixpoint consume (p : codeUnit -> bool) (fuel : nat) (content : jsstring)
    (current character : nat) (value : jsstring)
    : outcome (nat * nat * jsstring) :=
  match nth_error content current with
  | Some c =>
      if p c then
        match fuel with
        | O => Timeout
        | S fuel' =>
            consume p fuel' content (current + 1) (character + 1)
                    (value ++ [c])
        end
      else Done (current, character, value)
  | None => Done (current, character, value)
  end.

(** One iteration of the outer loop; [char] is [content[current]]. *)
Definition step (content : jsstring) (st : state) (char : codeUnit)
    : outcome state :=
  let 'mk current line character tokens := st in
  if isSpace char then
    if (char =? newline)%N
    then Done (mk (current + 1) (line + 1) 0 tokens)
    else Done (mk (current + 1) line (character + 1) tokens)
  else if isDigit char then
    let startPos := Position.mk line character in
    '(current', character', value) <-
      consume isDigit (List.length content) content current character [] ;;
    Done (mk current' line character'
            (tokens ++ [Token.mk NUMBER value startPos (List.length value)]))
  else if isIdentStart char then
    let startPos := Position.mk line character in
    '(current', character', value) <-
      consume isIdentPart (List.length content) content current character [] ;;
    let type := if has keywords value then KEYWORD else IDENTIFIER in
    Done (mk current' line character'
            (tokens ++ [Token.mk type value startPos (List.length value)]))
  else if (char =? quote)%N then
    let startPos := Position.mk line character in
    '(current', character', value) <-
      consume (fun c => negb (c =? quote)%N) (List.length content) content
              (current + 1) (character + 1) [char] ;;
    let '(current'', character'', value') :=
      match nth_error content current' with
      | Some c =>
          if (c =? quote)%N
          then (current' + 1, character' + 1, value ++ [quote])
          else (current', character', value)
      | None => (current', character', value)
      end in
    Done (mk current'' line character''
            (tokens ++ [Token.mk STRING value' startPos (List.length value')]))
  else if has operators [char] then
    let startPos := Position.mk line character in
    let '(current', character', value) :=
      match nth_error content (current + 1) with
      | Some nextChar =>
          if has operators [char; nextChar]
          then (current + 1, character + 1, [char; nextChar])
          else (current, character, [char])
      | None => (current, character, [char])
      end in
    Done (mk (current' + 1) line (character' + 1)
            (tokens ++ [Token.mk OPERATOR value startPos (List.length value)]))
  else
    Done (mk (current + 1) line (character + 1)
            (tokens ++ [Token.mk UNKNOWN [char]
                                 (Position.mk line character) 1])).

(** [while (current < content.length) { ... }] *)
Fixpoint loop (fuel : nat) (content : jsstring) (st : state)
    : outcome state :=
  match nth_error content (current st) with
  | None => Done st
  | Some char =>
      match fuel with
      | O => Timeout
      | S fuel' => st' <- step content st char ;; loop fuel' content st'
      end
  end.

Definition tokenize_fuel (fuel : nat) (content : jsstring)
    : outcome (list Token.t) :=
  st <- loop fuel content init ;; Done (tokens st).

(** Every iteration consumes a code unit, so [content.length] iterations
    are enough, for the outer loop and for each inner one; this is proved
    below, not assumed. *)
Definition tokenize (content : jsstring) : outcome (list Token.t) :=
  tokenize_fuel (List.length content) content.

End Lexer.


(** ** The validator *)

Module BlockContext.
Record t := mk {
  isIf : bool;
  startToken : Token.t;
  startIndex : nat;
  braceCount : Z
}.
End BlockContext.

Module Validator.

(** The four variables of [validateSyntax].  [blockStack] is kept with
    the top of the stack first: [blockStack.push(b)] is [b :: blockStack],
    and the array of the source is [rev blockStack]. *)
Record state := mk {
  diagnostics : list Diagnostic.t;
  declaredVariables : list jsstring;
  blockStack : list BlockContext.t;
  current : nat
}.

Definition init : state := mk [] [] [] 0.

Definition createError (token : Token.t) (message : jsstring)
    : Diagnostic.t :=
  let start := Token.position token in
  let end_ :=
    Position.mk (Position.line start)
                (Position.character start + Token.length token) in
  createDiagnostic start end_ message DiagnosticSeverity.Error.

(** [token.value === "lit"] *)
Definition valueIs (token : Token.t) (lit : string) : bool :=
  str_eqb (Token.value token) (js lit).

(** [token.type === ty] *)
Definition typeIs (token : Token.t) (ty : TokenType) : bool :=
  TokenType_eqb (Token.type token) ty.

(** The initializer loop of a [var] declaration:
    [while (current < tokens.length && tokens[current].value !== ";")
       { if (IDENTIFIER && !declaredVariables.has(..)) push(..); current++; }] *)
Fixpoint scanInitializer (fuel : nat) (tokens : list Token.t)
    (declaredVariables : list jsstring) (current : nat)
    (diagnostics : list Diagnostic.t)
    : outcome (nat * list Diagnostic.t) :=
  match nth_error tokens current with
  | Some t =>
      if negb (valueIs t ";") then
        match fuel with
        | O => Timeout
        | S fuel' =>
            let diagnostics' :=
              if typeIs t IDENTIFIER
                 && negb (has declaredVariables (Token.value t))
              then diagnostics ++
                   [createError t (js "Undefined variable " ++ [quote]
                                     ++ Token.value t ++ [quote]
                                     ++ js " in initialization")]
              else diagnostics in
            scanInitializer fuel' tokens declaredVariables (current + 1)
                            diagnostics'
        end
      else Done (current, diagnostics)
  | None => Done (current, diagnostics)
  end.

(** The parenthesis loop, written three times in the source:
    [while (current < tokens.length && parenCount > 0)
       { if ("(") parenCount++; if (")") parenCount--; current++; }] *)
Fixpoint skipParens (fuel : nat) (tokens : list Token.t) (current : nat)
    (parenCount : Z) : outcome (nat * Z) :=
  match nth_error tokens current with
  | Some t =>
      if (0 <? parenCount)%Z then
        match fuel with
        | O => Timeout
        | S fuel' =>
            let parenCount1 :=
              if valueIs t "(" then (parenCount + 1)%Z else parenCount in
            let parenCount2 :=
              if valueIs t ")" then (parenCount1 - 1)%Z else parenCount1 in
            skipParens fuel' tokens (current + 1) parenCount2
        end
      else Done (current, parenCount)
  | None => Done (current, parenCount)
  end.

(** [i >= tokens.length || !p(tokens[i])] *)
Definition missing (tokens : list Token.t) (i : nat)
    (p : Token.t -> bool) : bool :=
  match nth_error tokens i with
  | Some t => negb (p t)
  | None => true
  end.

(** [i < tokens.length && p(tokens[i])] *)
Definition present (tokens : list Token.t) (i : nat)
    (p : Token.t -> bool) : bool :=
  match nth_error tokens i with
  | Some t => p t
  | None => false
  end.

(** [tokens[i]] where the source reads a property of it at once. *)
Definition tokenAt (tokens : list Token.t) (i : nat) : outcome Token.t :=
  match nth_error tokens i with
  | Some t => Done t
  | None => TypeError
  end.

(** [tokens[current - 1]] handed to [createError]; index -1 holds
    [undefined]. *)
Definition tokenBefore (tokens : list Token.t) (current : nat)
    : outcome Token.t :=
  match current with
  | O => TypeError
  | S i => tokenAt tokens i
  end.

(** [tokens[current] || token] *)
Definition tokenOr (tokens : list Token.t) (current : nat)
    (token : Token.t) : Token.t :=
  match nth_error tokens current with
  | Some t => t
  | None => token
  end.

(** The rule for a closing brace: decrement the top block, pop it at 0. *)
Definition closeBrace (blockStack : list BlockContext.t)
    : list BlockContext.t :=
  match blockStack with
  | [] => []
  | block :: below =>
      let block' :=
        BlockContext.mk (BlockContext.isIf block)
                        (BlockContext.startToken block)
                        (BlockContext.startIndex block)
                        (BlockContext.braceCount block - 1) in
      if (BlockContext.braceCount block' =? 0)%Z
      then below
      else block' :: below
  end.

(** The rule for an opening brace met by the main loop. *)
Definition openBrace (blockStack : list BlockContext.t) (current : nat)
    : list BlockContext.t :=
  match blockStack with
  | [] => []
  | block :: below =>
      if negb (BlockContext.startIndex block =? current)
      then BlockContext.mk (BlockContext.isIf block)
                           (BlockContext.startToken block)
                           (BlockContext.startIndex block)
                           (BlockContext.braceCount block + 1) :: below
      else block :: below
  end.

(** [case "var"]: every path ends in [continue]. *)
Definition caseVar (tokens : list Token.t) (st : state) (token : Token.t)
    : outcome state :=
  let 'mk diagnostics declaredVariables blockStack current := st in
  if missing tokens (current + 1) (fun t => typeIs t IDENTIFIER) then
    Done (mk (diagnostics ++
              [createError token
                 (js "var keyword must be followed by an identifier")])
             declaredVariables blockStack (current + 1))
  else if missing tokens (current + 2) (fun t => valueIs t "=") then
    ident <- tokenAt tokens (current + 1) ;;
    Done (mk (diagnostics ++
              [createError ident
                 (js "var declaration requires initialization with '='")])
             declaredVariables blockStack (current + 2))
  else
    ident <- tokenAt tokens (current + 1) ;;
    let declaredVariables' := add declaredVariables (Token.value ident) in
    '(current', diagnostics') <-
      scanInitializer (List.length tokens) tokens declaredVariables'
                      (current + 3) diagnostics ;;
    if missing tokens current' (fun t => valueIs t ";") then
      last <- tokenBefore tokens current' ;;
      Done (mk (diagnostics' ++
                [createError last
                   (js "var declaration must end with semicolon")])
               declaredVariables' blockStack current')
    else
      Done (mk diagnostics' declaredVariables' blockStack (current' + 1)).

(** [case "meow": case "meowln"]; the path through the parenthesis loop
    ends in [break], so the [current++] that closes the iteration runs. *)
Definition caseMeow (tokens : list Token.t) (st : state) (token : Token.t)
    : outcome state :=
  let 'mk diagnostics declaredVariables blockStack current := st in
  if missing tokens (current + 1) (fun t => valueIs t "(") then
    Done (mk (diagnostics ++
              [createError token
                 (js "Invalid " ++ Token.value token
                  ++ js " call. Expected " ++ [quote] ++ js "(" ++ [quote]
                  ++ js " after " ++ [quote] ++ Token.value token
                  ++ [quote])])
             declaredVariables blockStack (current + 1))
  else
    '(current', parenCount) <-
      skipParens (List.length tokens) tokens (current + 2) 1 ;;
    let diagnostics' :=
      if (0 <? parenCount)%Z
      then diagnostics ++
           [createError token
              (js "Unclosed parenthesis in " ++ Token.value token
               ++ js " call")]
      else diagnostics in
    Done (mk diagnostics' declaredVariables blockStack (current' + 1)).

(** [case "for": case "while": case "if"]; the block is pushed with
    [isIf: true] whichever of the three keywords [token] is. *)
Definition caseIf (tokens : list Token.t) (st : state) (token : Token.t)
    : outcome state :=
  let 'mk diagnostics declaredVariables blockStack current := st in
  if missing tokens (current + 1) (fun t => valueIs t "(") then
    Done (mk (diagnostics ++
              [createError token
                 (js "Invalid " ++ Token.value token
                  ++ js " statement. Expected " ++ [quote] ++ js "("
                  ++ [quote] ++ js " after " ++ [quote] ++ js "if"
                  ++ [quote])])
             declaredVariables blockStack (current + 1))
  else
    '(current', parenCount) <-
      skipParens (List.length tokens) tokens (current + 2) 1 ;;
    if (0 <? parenCount)%Z then
      Done (mk (diagnostics ++
                [createError token
                   (js "Unclosed parenthesis in " ++ Token.value token
                    ++ js " condition")])
               declaredVariables blockStack current')
    else if present tokens current' (fun t => valueIs t "{") then
      Done (mk diagnostics declaredVariables
               (BlockContext.mk true token current' 1 :: blockStack)
               (current' + 1 + 1))
    else
      Done (mk (diagnostics ++
                [createError (tokenOr tokens current' token)
                   (js "Expected block starting with " ++ [quote]
                    ++ js "{" ++ [quote] ++ js " for "
                    ++ Token.value token ++ js " statement")])
               declaredVariables blockStack (current' + 1)).

(** The [else if] part of [case "else"]: [inl st] when the iteration is
    left by [continue], [inr current] when control reaches the test for
    the opening brace. *)
Definition elseIf (tokens : list Token.t) (st : state) (current1 : nat)
    : outcome (state + nat) :=
  let 'mk diagnostics declaredVariables blockStack _ := st in
  if present tokens current1 (fun t => valueIs t "if") then
    let current2 := current1 + 1 in
    if missing tokens current2 (fun t => valueIs t "(") then
      prev <- tokenBefore tokens current2 ;;
      Done (inl (mk (diagnostics ++
                     [createError prev
                        (js "Invalid else if statement. Expected "
                         ++ [quote] ++ js "(" ++ [quote] ++ js " after "
                         ++ [quote] ++ js "if" ++ [quote])])
                    declaredVariables blockStack current2))
    else
      '(current3, parenCount) <-
        skipParens (List.length tokens) tokens (current2 + 1) 1 ;;
      if (0 <? parenCount)%Z then
        prev <- tokenBefore tokens current3 ;;
        Done (inl (mk (diagnostics ++
                       [createError prev
                          (js "Unclosed parenthesis in else if condition")])
                      declaredVariables blockStack current3))
      else Done (inr current3)
  else Done (inr current1).

(** [case "else"] *)
Definition caseElse (tokens : list Token.t) (st : state) (token : Token.t)
    : outcome state :=
  let 'mk diagnostics declaredVariables blockStack current := st in
  let hasMatchingIf := existsb BlockContext.isIf blockStack in
  if negb hasMatchingIf then
    Done (mk (diagnostics ++
              [createError token
                 (js "else statement without preceding if statement")])
             declaredVariables blockStack (current + 1))
  else
    r <- elseIf tokens st (current + 1) ;;
    match r with
    | inl st' => Done st'
    | inr current' =>
        if present tokens current' (fun t => valueIs t "{") then
          Done (mk diagnostics declaredVariables
                   (BlockContext.mk false token current' 1 :: blockStack)
                   (current' + 1 + 1))
        else
          Done (mk (diagnostics ++
                    [createError (tokenOr tokens current' token)
                       (js "Expected block starting with " ++ [quote]
                        ++ js "{" ++ [quote] ++ js " for else statement")])
                   declaredVariables blockStack (current' + 1))
    end.

(** One iteration of the main loop; [token] is [tokens[current]]. *)
Definition body (tokens : list Token.t) (st : state) (token : Token.t)
    : outcome state :=
  let 'mk diagnostics declaredVariables blockStack current := st in
  if valueIs token "}" then
    Done (mk diagnostics declaredVariables (closeBrace blockStack)
             (current + 1))
  else if valueIs token "{" then
    Done (mk diagnostics declaredVariables (openBrace blockStack current)
             (current + 1))
  else if typeIs token UNKNOWN then
    Done (mk (diagnostics ++
              [createError token
                 (js "Unexpected character: " ++ Token.value token)])
             declaredVariables blockStack (current + 1))
  else if typeIs token KEYWORD then
    if valueIs token "var" then caseVar tokens st token
    else if valueIs token "meow" || valueIs token "meowln" then
      caseMeow tokens st token
    else if valueIs token "for" || valueIs token "while"
            || valueIs token "if" then
      caseIf tokens st token
    else if valueIs token "else" then caseElse tokens st token
    else Done (mk diagnostics declaredVariables blockStack (current + 1))
  else if typeIs token IDENTIFIER
          && negb (has declaredVariables (Token.value token)) then
    Done (mk (diagnostics ++
              [createError token
                 (js "Undefined variable " ++ [quote]
                  ++ Token.value token ++ [quote])])
             declaredVariables blockStack (current + 1))
  else
    Done (mk diagnostics declaredVariables blockStack (current + 1)).

(** [while (current < tokens.length) { const token = tokens[current]; ... }] *)
Fixpoint loop (fuel : nat) (tokens : list Token.t) (st : state)
    : outcome state :=
  match nth_error tokens (current st) with
  | None => Done st
  | Some token =>
      match fuel with
      | O => Timeout
      | S fuel' => st' <- body tokens st token ;; loop fuel' tokens st'
      end
  end.

(** [blockStack.forEach(block => { if (block.braceCount > 0) push(..) })],
    from the bottom of the stack to its top. *)
Definition reportUnclosed (diagnostics : list Diagnostic.t)
    (blockStack : list BlockContext.t) : list Diagnostic.t :=
  fold_left
    (fun ds block =>
       if (0 <? BlockContext.braceCount block)%Z
       then ds ++
            [createError (BlockContext.startToken block)
               (js "Unclosed block starting at position "
                ++ str_of_nat (BlockContext.startIndex block))]
       else ds)
    (rev blockStack) diagnostics.

Definition validateSyntax_fuel (fuel : nat) (tokens : list Token.t)
    : outcome (list Diagnostic.t) :=
  st <- loop fuel tokens init ;;
  Done (reportUnclosed (diagnostics st) (blockStack st)).

(** Every iteration moves [current] forward, so [tokens.length]
    iterations are enough, for the main loop and for each inner one; this
    is proved below, not assumed. *)
Definition validateSyntax (tokens : list Token.t)
    : outcome (list Diagnostic.t) :=
  validateSyntax_fuel (List.length tokens) tokens.

End Validator.

(** The analysis of [diagnostic], for the content of a stored document:
    [validateSyntax(tokenize(content))]. *)
Definition diagnosticItems (content : jsstring)
    : outcome (list Diagnostic.t) :=
  tokens <- Lexer.tokenize content ;; Validator.validateSyntax tokens.

(** ** The request handler *)

Module FullDocumentDiagnosticReport.
Record t := mk { kind : jsstring; items : list Diagnostic.t }.
End FullDocumentDiagnosticReport.

(** [diagnostic], from the uri that the message carries in
    [params.textDocument.uri].  The document store lies outside these
    files: [documents uri] stands for [documents.get(uri)], [None] for
    [undefined].  [!content] holds of [undefined] and of the empty
    string; [None] in the result is [null]. *)
Definition diagnostic (documents : jsstring -> option jsstring)
    (uri : jsstring) : outcome (option FullDocumentDiagnosticReport.t) :=
  match documents uri with
  | None => Done None
  | Some [] => Done None
  | Some content =>
      tokens <- Lexer.tokenize content ;;
      diagnostics <- Validator.validateSyntax tokens ;;
      Done (Some (FullDocumentDiagnosticReport.mk (js "full") diagnostics))
  end.

(** ** Completion *)

Definition words : list jsstring :=
  map js ["var"; "false"; "true"; "if"; "else"; "while"; "for"; "fn";
          "return"; "meow"; "meowln"]%string.

Module CompletionItem.
Record t := mk { label : jsstring }.
End CompletionItem.

Module CompletionList.
Record t := mk { isIncomplete : bool; items : list CompletionItem.t }.
End CompletionList.

(** [content.split("\n")] *)
Fixpoint split (content : jsstring) : list jsstring :=
  match content with
  | [] => [[]]
  | c :: rest =>
      if (c =? newline)%N then [] :: split rest
      else match split rest with
           | line :: lines => (c :: line) :: lines
           | [] => [[c]]
           end
  end.

(** [word.startsWith(prefix)] *)
Fixpoint startsWith (word prefix : jsstring) {struct prefix} : bool :=
  match prefix, word with
  | [], _ => true
  | p :: prefix', w :: word' => (w =? p)%N && startsWith word' prefix'
  | _ :: _, [] => false
  end.

(** The code units that [.] does not match: the line terminators. *)
Definition isLineTerminator (c : codeUnit) : bool :=
  ((c =? 10) || (c =? 13) || (c =? 8232) || (c =? 8233))%N.

(** [/\W/]: the complement of [/[a-zA-Z0-9_]/]. *)
Definition isNonWord (c : codeUnit) : bool := negb (isIdentPart c).

(** The text after the first code unit that satisfies [p]. *)
Fixpoint afterFirst (p : codeUnit -> bool) (s : jsstring)
    : option jsstring :=
  match s with
  | [] => None
  | c :: rest => if p c then Some rest else afterFirst p rest
  end.

(** The text after the last code unit that satisfies [p]. *)
Fixpoint afterLast (p : codeUnit -> bool) (s : jsstring)
    : option jsstring :=
  match s with
  | [] => None
  | c :: rest =>
      match afterLast p rest with
      | Some r => Some r
      | None => if p c then Some rest else None
      end
  end.

(** [lineUntilCursor.replace(/.*\W(.*?)/, "$1")].  The expression has no
    flag, so the first match is replaced, and a match, when there is one,
    starts at index 0: [.*] takes the longest run of code units that are
    no line terminators and gives back as few as [\W] needs, and the lazy
    group matches the empty text, which is what replaces the match.  When
    the text holds a line terminator, the run ends in front of the first
    one, which is a [\W]: the match is the text up to and with it.
    Otherwise [\W] matches the last non-word code unit of the text: the
    match is the text up to and with it.  With no non-word code unit there
    is no match and the text is returned as it is. *)
Definition currentPref (lineUntilCursor : jsstring) : jsstring :=
  match afterFirst isLineTerminator lineUntilCursor with
  | Some rest => rest
  | None =>
      match afterLast isNonWord lineUntilCursor with
      | Some rest => rest
      | None => lineUntilCursor
      end
  end.

(** [completion], from the uri and the position that the message carries
    in [params]; [documents] is the document store, as for [diagnostic].
    [currentLine] is [undefined] when the document has no line of that
    number, and [currentLine.slice] then raises.  The call of the logger
    in front of the [return] is left out. *)
Definition completion (documents : jsstring -> option jsstring)
    (uri : jsstring) (position : Position.t)
    : outcome (option CompletionList.t) :=
  match documents uri with
  | None => Done None
  | Some [] => Done None
  | Some content =>
      match nth_error (split content) (Position.line position) with
      | None => TypeError
      | Some currentLine =>
          let lineUntilCursor :=
            firstn (Position.character position) currentLine in
          let pref := currentPref lineUntilCursor in
          let items :=
            map CompletionItem.mk
                (filter (fun word => startsWith word pref) words) in
          Done (Some (CompletionList.mk true items))
      end
  end.

(** ** The server: framing of the messages *)

Definition CRLF : jsstring := [13; 10]%N.

(** [s.indexOf(needle)]; [None] stands for -1. *)
Fixpoint indexOf (needle s : jsstring) : option nat :=
  if startsWith s needle then Some 0
  else match s with
       | [] => None
       | _ :: rest => option_map S (indexOf needle rest)
       end.

(** The longest front of [s] made of code units that satisfy [p], and what
    follows it. *)
Fixpoint span (p : codeUnit -> bool) (s : jsstring) : jsstring * jsstring :=
  match s with
  | [] => ([], [])
  | c :: rest =>
      if p c
      then let '(front, back) := span p rest in (c :: front, back)
      else ([], s)
  end.

(** A match of [/Content-Length: (\d+)\r\n/] that starts at index 0, given
    by its group: the digits are as many as there are, since what follows
    the group is no digit. *)
Definition headerAt (s : jsstring) : option jsstring :=
  if startsWith s (js "Content-Length: ") then
    let '(digits, rest) := span isDigit (skipn 16 s) in
    match digits with
    | [] => None
    | _ :: _ => if startsWith rest CRLF then Some digits else None
    end
  else None.

(** [buffer.match(/Content-Length: (\d+)\r\n/)], given by group 1 of the
    match, which is the leftmost one; [None] is [null]. *)
Fixpoint lengthMatch (buffer : jsstring) : option jsstring :=
  match headerAt buffer with
  | Some digits => Some digits
  | None =>
      match buffer with
      | [] => None
      | _ :: rest => lengthMatch rest
      end
  end.

(** [parseInt(digits, 10)] for a text of digits, as an exact natural
    number: the number of JavaScript is the same up to 2^53, which no
    length of a buffer reaches. *)
Definition parseInt (digits : jsstring) : nat :=
  fold_left (fun n c => 10 * n + (N.to_nat c - 48)) digits 0.

(** One turn of the [while (true)] loop of the reader, up to the text it
    hands to [JSON.parse], with the buffer that the turn leaves; [None]
    is [break].  When [indexOf] finds no blank line, [messageStart] is
    -1 + 4. *)
Definition nextMessage (buffer : jsstring) : option (jsstring * jsstring) :=
  match lengthMatch buffer with
  | None => None
  | Some digits =>
      let contentLength := parseInt digits in
      let messageStart :=
        match indexOf (CRLF ++ CRLF) buffer with
        | Some i => i + 4
        | None => 3
        end in
      if List.length buffer <? messageStart + contentLength then None
      else Some (firstn contentLength (skipn messageStart buffer),
                 skipn (messageStart + contentLength) buffer)
  end.

(** The loop of the reader on a buffer, given by the texts it hands to
    [JSON.parse], one for each turn, and the buffer it leaves; parsing and
    the method called for the message are outside these files and are
    taken to return. *)
Fixpoint readMessages (fuel : nat) (buffer : jsstring)
    : outcome (list jsstring * jsstring) :=
  match nextMessage buffer with
  | None => Done ([], buffer)
  | Some (rawMessage, rest) =>
      match fuel with
      | O => Timeout
      | S fuel' =>
          '(messages, leftover) <- readMessages fuel' rest ;;
          Done (rawMessage :: messages, leftover)
      end
  end.

Definition isHighSurrogate (c : codeUnit) : bool :=
  ((55296 <=? c) && (c <=? 56319))%N.

Definition isLowSurrogate (c : codeUnit) : bool :=
  ((56320 <=? c) && (c <=? 57343))%N.

(** [Buffer.byteLength(message, "utf-8")]: one byte for a code unit below
    0x80, two below 0x800, four for a surrogate pair, three for any other
    code unit (a lone surrogate is written as U+FFFD). *)
Fixpoint byteLength (message : jsstring) : nat :=
  match message with
  | [] => 0
  | c :: rest =>
      if (c <? 128)%N then 1 + byteLength rest
      else if (c <? 2048)%N then 2 + byteLength rest
      else if isHighSurrogate c then
        match rest with
        | d :: rest' =>
            if isLowSurrogate d then 4 + byteLength rest'
            else 3 + byteLength rest
        | [] => 3
        end
      else 3 + byteLength rest
  end.

(** [`Content-Length: ${messageLength}\r\n\r\n`] *)
Definition header (messageLength : nat) : jsstring :=
  js "Content-Length: " ++ str_of_nat messageLength ++ CRLF ++ CRLF.

(** What [respond] writes to the output, for the text [message] that
    [JSON.stringify] made of the id and the result. *)
Definition respond (message : jsstring) : jsstring :=
  header (byteLength message) ++ message.

(** * Vocabulary of the properties *)

(** [content.slice(i, i + k)] *)
Definition slice (content : jsstring) (i k : nat) : jsstring :=
  firstn k (skipn i content).

(** What one iteration of the outer loop does to the state: it moves
    [current] forward inside the input, and either skipped one white
    space code unit or, standing on a code unit [c] that is no white
    space, pushed one token whose [value] is the text it moved over. *)
Definition advances (content : jsstring) (st st' : Lexer.state) : Prop :=
  Lexer.current st < Lexer.current st' <= List.length content
  /\ ((Lexer.tokens st' = Lexer.tokens st
       /\ exists c, slice content (Lexer.current st)
                      (Lexer.current st' - Lexer.current st) = [c]
                    /\ isSpace c = true)
      \/ (exists tok c,
            nth_error content (Lexer.current st) = Some c
            /\ isSpace c = false
            /\ Lexer.tokens st' = Lexer.tokens st ++ [tok]
            /\ slice content (Lexer.current st)
                 (Lexer.current st' - Lexer.current st) = Token.value tok
            /\ Token.type tok <> PUNCTUATION)).

(** [weave [g1; ..; gn] [t1; ..; tn] tail] is the text
    [g1 t1.value g2 t2.value .. gn tn.value tail]. *)
Fixpoint weave (gaps : list jsstring) (toks : list Token.t)
    (tail : jsstring) : jsstring :=
  match gaps, toks with
  | g :: gaps', t :: toks' => g ++ Token.value t ++ weave gaps' toks' tail
  | _, _ => tail
  end.

Definition allSpace (g : jsstring) : Prop := forallb isSpace g = true.

(** A token text that begins with a code unit that is no white space. *)
Definition startsVisible (t : Token.t) : Prop :=
  match Token.value t with
  | c :: _ => isSpace c = false
  | [] => False
  end.

(** The code units of the one-character members of [operators]. *)
Definition operatorChars : list codeUnit :=
  [43; 45; 42; 47; 37; 60; 62; 33; 61; 91; 93; 40; 41; 125; 123; 59]%N.

(** A diagnostic built by [createError] for a token of the input. *)
Definition anchored (tokens : list Token.t) (d : Diagnostic.t) : Prop :=
  exists token message,
    In token tokens /\ d = Validator.createError token message.

(** A block on the stack: opened by a token of the input, with at least
    one brace still open. *)
Definition goodBlock (tokens : list Token.t) (b : BlockContext.t)
    : Prop :=
  In (BlockContext.startToken b) tokens
  /\ (1 <= BlockContext.braceCount b)%Z.

Definition Inv (tokens : list Token.t) (st : Validator.state) : Prop :=
  Forall (anchored tokens) (Validator.diagnostics st)
  /\ Forall (goodBlock tokens) (Validator.blockStack st).

(** What one iteration of the main loop is shown to do: it ends without a
    fault, moves [current] forward and keeps the invariant. *)
Definition stepsTo (tokens : list Token.t) (st : Validator.state)
    (r : outcome Validator.state) : Prop :=
  exists st',
    r = Done st'
    /\ Validator.current st < Validator.current st'
    /\ Inv tokens st'.

(** The states of the main loop of [validateSyntax tokens]: the initial
    one, and the one each iteration leaves. *)
Inductive reachable (tokens : list Token.t) : Validator.state -> Prop :=
| reach_init : reachable tokens Validator.init
| reach_body (st st' : Validator.state) (token : Token.t) :
    reachable tokens st ->
    nth_error tokens (Validator.current st) = Some token ->
    Validator.body tokens st token = Done st' ->
    reachable tokens st'.

(** The diagnostic of the end-of-pass report for a block. *)
Definition unclosedError (block : BlockContext.t) : Diagnostic.t :=
  Validator.createError (BlockContext.startToken block)
    (js "Unclosed block starting at position "
     ++ str_of_nat (BlockContext.startIndex block)).

(** The tokens of the text "if (a) {" and the state that the one iteration
    of the main loop on them leaves. *)
Definition tokens_if_open : list Token.t :=
  [Token.mk KEYWORD (js "if") (Position.mk 0 0) 2;
   Token.mk OPERATOR (js "(") (Position.mk 0 3) 1;
   Token.mk IDENTIFIER (js "a") (Position.mk 0 4) 1;
   Token.mk OPERATOR (js ")") (Position.mk 0 5) 1;
   Token.mk OPERATOR (js "{") (Position.mk 0 7) 1].

Definition state_if_open : Validator.state :=
  Validator.mk [] []
    [BlockContext.mk true (Token.mk KEYWORD (js "if") (Position.mk 0 0) 2)
                     4 1]
    6.

(** A token of an initializer that the validator passes over in silence:
    no semicolon, and a declared name where it is an IDENTIFIER. *)
Definition initializerToken (declared : list jsstring) (t : Token.t)
    : Prop :=
  Validator.valueIs t ";" = false
  /\ (Validator.typeIs t IDENTIFIER = true ->
      has declared (Token.value t) = true).

(** A token list made of well-formed declarations only:
    [var IDENT = initializer ;] repeated, where each name of an initializer
    is declared before or by the declaration it stands in. *)
Inductive varDeclarations : list jsstring -> list Token.t -> Prop :=
| decls_nil (declared : list jsstring) : varDeclarations declared []
| decls_cons (declared : list jsstring) (kw ident eq semi : Token.t)
    (init rest : list Token.t) :
    Validator.typeIs kw KEYWORD = true ->
    Validator.valueIs kw "var" = true ->
    Validator.typeIs ident IDENTIFIER = true ->
    Validator.valueIs eq "=" = true ->
    Forall (initializerToken (add declared (Token.value ident))) init ->
    Validator.valueIs semi ";" = true ->
    varDeclarations (add declared (Token.value ident)) rest ->
    varDeclarations declared (kw :: ident :: eq :: init ++ semi :: rest).

(** ** Vocabulary of the further properties of the lexer *)

(** The text of an identifier or keyword: a start character, then
    identifier characters. *)
Definition identShaped (v : jsstring) : Prop :=
  match v with
  | c :: _ => isIdentStart c = true /\ forallb isIdentPart v = true
  | [] => False
  end.

Definition notQuote (c : codeUnit) : bool := negb (c =? quote)%N.

(** A string with its closing quote, and one that the end of input cut. *)
Definition closedString (v : jsstring) : Prop :=
  exists body, v = quote :: body ++ [quote] /\ forallb notQuote body = true.

Definition openString (v : jsstring) : Prop :=
  exists body, v = quote :: body /\ forallb notQuote body = true.

(** The texts that an OPERATOR token can hold. *)
Definition operatorTexts : list jsstring :=
  map js ["+"; "-"; "*"; "/"; "%"; "<"; ">"; "!"; "="; "["; "]"; "("; ")";
          "}"; "{"; ";"; "=="; "!="]%string.

(** What the type of a token says about its text. *)
Definition tokenShape (t : Token.t) : Prop :=
  Token.length t = List.length (Token.value t)
  /\ match Token.type t with
     | NUMBER =>
         Token.value t <> [] /\ forallb isDigit (Token.value t) = true
     | KEYWORD =>
         has keywords (Token.value t) = true /\ identShaped (Token.value t)
     | IDENTIFIER =>
         has keywords (Token.value t) = false /\ identShaped (Token.value t)
     | STRING => closedString (Token.value t) \/ openString (Token.value t)
     | OPERATOR => In (Token.value t) operatorTexts
     | PUNCTUATION => False
     | UNKNOWN =>
         exists c,
           Token.value t = [c]
           /\ isSpace c = false /\ isDigit c = false
           /\ isIdentStart c = false /\ (c =? quote)%N = false
           /\ has operators [c] = false
     end.

(** One iteration of the outer loop of [tokenize], in full: it skips the
    white space code unit under the cursor, counting a line for a
    newline and a column for any other, or it pushes one token, placed at
    the cursor, whose text is the input from the cursor on and whose
    length is the number of columns and code units the cursor moves by. *)
Definition lexes (content : jsstring) (st st' : Lexer.state) : Prop :=
  Lexer.current st < Lexer.current st' <= List.length content
  /\ exists c,
       nth_error content (Lexer.current st) = Some c
       /\ ((isSpace c = true
            /\ Lexer.current st' = Lexer.current st + 1
            /\ Lexer.tokens st' = Lexer.tokens st
            /\ Lexer.line st'
               = (if (c =? newline)%N then Lexer.line st + 1
                  else Lexer.line st)
            /\ Lexer.character st'
               = (if (c =? newline)%N then 0 else Lexer.character st + 1))
           \/ (isSpace c = false
               /\ exists tok,
                    Lexer.tokens st' = Lexer.tokens st ++ [tok]
                    /\ Token.position tok
                       = Position.mk (Lexer.line st) (Lexer.character st)
                    /\ tokenShape tok
                    /\ slice content (Lexer.current st)
                         (List.length (Token.value tok))
                       = Token.value tok
                    /\ Lexer.current st'
                       = Lexer.current st + List.length (Token.value tok)
                    /\ Lexer.line st' = Lexer.line st
                    /\ Lexer.character st'
                       = Lexer.character st + List.length (Token.value tok)
                    /\ (Token.type tok = STRING ->
                        closedString (Token.value tok)
                        \/ Lexer.current st' = List.length content))).

(** A token that ends before another begins: on an earlier line, or on the
    same line with its last column before the other's first. *)
Definition precedes (t u : Token.t) : Prop :=
  Position.line (Token.position t) < Position.line (Token.position u)
  \/ (Position.line (Token.position t) = Position.line (Token.position u)
      /\ Position.character (Token.position t) + Token.length t
         <= Position.character (Token.position u)).

(** A token that ends at or before a cursor. *)
Definition endsBefore (line character : nat) (t : Token.t) : Prop :=
  Position.line (Token.position t) < line
  \/ (Position.line (Token.position t) = line
      /\ Position.character (Token.position t) + Token.length t
         <= character).

(** The line and column at the end of a text: a newline starts a line, any
    other code unit is a column. *)
Definition textStep (p : Position.t) (c : codeUnit) : Position.t :=
  if (c =? newline)%N
  then Position.mk (Position.line p + 1) 0
  else Position.mk (Position.line p) (Position.character p + 1).

Definition textPosition (text : jsstring) : Position.t :=
  fold_left textStep text (Position.mk 0 0).

(** [placed before gaps toks]: each token stands at the line and column
    where its text begins, in the text [before] followed by the gaps and
    the token texts in turn. *)
Fixpoint placed (before : jsstring) (gaps : list jsstring)
    (toks : list Token.t) : Prop :=
  match gaps, toks with
  | g :: gaps', t :: toks' =>
      Token.position t = textPosition (before ++ g)
      /\ placed (before ++ g ++ Token.value t) gaps' toks'
  | _, _ => True
  end.

(** ** Vocabulary of the further properties of the validator *)

(** Where a block on the stack comes from: a KEYWORD token [for], [while],
    [if] or [else] of the input, with [isIf] set unless the keyword is
    [else], and an opening brace at [startIndex], after the keyword and
    before the cursor. *)
Definition blockOrigin (tokens : list Token.t) (current : nat)
    (b : BlockContext.t) : Prop :=
  (exists i,
     i < BlockContext.startIndex b
     /\ nth_error tokens i = Some (BlockContext.startToken b))
  /\ Validator.typeIs (BlockContext.startToken b) KEYWORD = true
  /\ (Validator.valueIs (BlockContext.startToken b) "for"
      || Validator.valueIs (BlockContext.startToken b) "while"
      || Validator.valueIs (BlockContext.startToken b) "if"
      || Validator.valueIs (BlockContext.startToken b) "else") = true
  /\ BlockContext.isIf b
     = negb (Validator.valueIs (BlockContext.startToken b) "else")
  /\ Validator.present tokens (BlockContext.startIndex b)
       (fun t => Validator.valueIs t "{") = true
  /\ BlockContext.startIndex b < current.

(** The change of the parenthesis count at a token, and the count after a
    run of tokens. *)
Definition parenDelta (t : Token.t) : Z :=
  (if Validator.valueIs t "(" then 1 else 0)
  - (if Validator.valueIs t ")" then 1 else 0).

Definition depthAfter (parenCount : Z) (ts : list Token.t) : Z :=
  fold_left (fun d t => (d + parenDelta t)%Z) ts parenCount.

(** [tokens.slice(i, i + k)] *)
Definition tokenSlice (tokens : list Token.t) (i k : nat) : list Token.t :=
  firstn k (skipn i tokens).

(** The tokens that the main loop has passed, and what it holds for them:
    diagnostics and open blocks. *)
Definition passed (tokens : list Token.t) (st : Validator.state) : nat :=
  Nat.min (Validator.current st) (List.length tokens).

Definition weight (st : Validator.state) : nat :=
  List.length (Validator.diagnostics st)
  + List.length (Validator.blockStack st).

(** What one state adds to another: diagnostics at the end of the list,
    declared names, nothing taken away. *)
Definition extends (st st' : Validator.state) : Prop :=
  (exists added,
     Validator.diagnostics st' = Validator.diagnostics st ++ added)
  /\ forall x,
       has (Validator.declaredVariables st) x = true ->
       has (Validator.declaredVariables st') x = true.

(** An iteration that adds no more diagnostics and blocks than it passes
    tokens. *)
Definition lighter (tokens : list Token.t) (st st' : Validator.state)
    : Prop :=
  weight st' + passed tokens st <= weight st + passed tokens st'.

(** ** Vocabulary of the properties of completion *)

(** The number of newline code units of a text. *)
Definition newlines (content : jsstring) : nat :=
  List.length (filter (fun c => (c =? newline)%N) content).

Definition noLineTerminator (s : jsstring) : Prop :=
  forallb (fun c => negb (isLineTerminator c)) s = true.

(** A store that holds one text, whatever the uri, and a cursor in it. *)
Definition documents_typing (uri : jsstring) : option jsstring :=
  Some (js "var x = me").

Definition position_typing : Position.t := Position.mk 0 10.

(** The tokens of the text "var x = 5; var y = x + y;". *)
Definition tokens_two_declarations : list Token.t :=
  [Token.mk KEYWORD (js "var") (Position.mk 0 0) 3;
   Token.mk IDENTIFIER (js "x") (Position.mk 0 4) 1;
   Token.mk OPERATOR (js "=") (Position.mk 0 6) 1;
   Token.mk NUMBER (js "5") (Position.mk 0 8) 1;
   Token.mk OPERATOR (js ";") (Position.mk 0 9) 1;
   Token.mk KEYWORD (js "var") (Position.mk 0 11) 3;
   Token.mk IDENTIFIER (js "y") (Position.mk 0 15) 1;
   Token.mk OPERATOR (js "=") (Position.mk 0 17) 1;
   Token.mk IDENTIFIER (js "x") (Position.mk 0 19) 1;
   Token.mk OPERATOR (js "+") (Position.mk 0 21) 1;
   Token.mk IDENTIFIER (js "y") (Position.mk 0 23) 1;
   Token.mk OPERATOR (js ";") (Position.mk 0 24) 1].

(** A text of two lines, with a string on the second, and its tokens. *)
Definition text_two_lines : jsstring :=
  js "a =" ++ [newline] ++ js " " ++ [quote; 98; quote]%N.

Definition tokens_two_lines : list Token.t :=
  [Token.mk IDENTIFIER (js "a") (Position.mk 0 0) 1;
   Token.mk OPERATOR (js "=") (Position.mk 0 2) 1;
   Token.mk STRING [quote; 98; quote]%N (Position.mk 1 1) 3].

Create HintDb validator.

(** * Properties *)

(** ** Lists and strings *)

Lemma skipn_nth_error (A : Type) (l : list A) (i : nat) (x : A) :
  nth_error l i = Some x -> skipn i l = x :: skipn (S i) l.
Proof.
  revert l; induction i as [|i IH]; intros [|y l] H; simpl in *;
    try discriminate.
  - now inversion H.
  - now apply IH.
Qed.

Lemma firstn_plus_slice (content : jsstring) (i k : nat) :
  firstn (i + k) content = firstn i content ++ slice content i k.
Proof.
  unfold slice; revert content; induction i as [|i IH]; intros content.
  - reflexivity.
  - destruct content as [|c content]; simpl.
    + now rewrite firstn_nil.
    + now rewrite IH.
Qed.

Lemma slice_S (content : jsstring) (i k : nat) (c : codeUnit) :
  nth_error content i = Some c ->
  slice content i (S k) = c :: slice content (i + 1) k.
Proof.
  intros H; unfold slice.
  rewrite (skipn_nth_error _ _ _ _ H), Nat.add_1_r; reflexivity.
Qed.

Lemma slice_1 (content : jsstring) (i : nat) (c : codeUnit) :
  nth_error content i = Some c -> slice content i 1 = [c].
Proof.
  intros H; rewrite (slice_S _ _ 0 _ H); unfold slice; now rewrite firstn_O.
Qed.

Lemma slice_2 (content : jsstring) (i : nat) (c d : codeUnit) :
  nth_error content i = Some c -> nth_error content (i + 1) = Some d ->
  slice content i 2 = [c; d].
Proof.
  intros H1 H2; rewrite (slice_S _ _ 1 _ H1), (slice_1 _ _ _ H2); reflexivity.
Qed.

Lemma firstn_snoc (A : Type) (l : list A) (k : nat) (x : A) :
  nth_error l k = Some x -> firstn (k + 1) l = firstn k l ++ [x].
Proof.
  revert l; induction k as [|k IH]; intros [|y l] H; simpl in *;
    try discriminate.
  - now inversion H.
  - now rewrite IH.
Qed.

Lemma slice_snoc (content : jsstring) (i k : nat) (c : codeUnit) :
  nth_error content (i + k) = Some c ->
  slice content i (k + 1) = slice content i k ++ [c].
Proof.
  intros H; unfold slice; apply firstn_snoc.
  now rewrite nth_error_skipn.
Qed.

Lemma nth_error_lt (A : Type) (l : list A) (i : nat) (x : A) :
  nth_error l i = Some x -> i < List.length l.
Proof. intros H; apply nth_error_Some; congruence. Qed.

Lemma str_eqb_eq (a b : jsstring) : str_eqb a b = true <-> a = b.
Proof.
  revert b; induction a as [|x a IH]; intros [|y b]; simpl;
    try (split; (reflexivity || discriminate)).
  rewrite andb_true_iff, N.eqb_eq, IH; split.
  - intros [-> ->]; reflexivity.
  - intros H; inversion H; auto.
Qed.

(** ** The lexer: its loops *)

Section LexerLoops.

Variable content : jsstring.

(** The inner loop stops within the input, has read exactly the code
    units it appended, and stops at the first code unit that fails [p]. *)
Lemma consume_spec (p : codeUnit -> bool) (fuel : nat) :
  forall current character value,
    current <= List.length content ->
    List.length content - current <= fuel ->
    exists k,
      Lexer.consume p fuel content current character value
      = Done (current + k, character + k,
              value ++ slice content current k)
      /\ current + k <= List.length content
      /\ forallb p (slice content current k) = true
      /\ (forall c, nth_error content (current + k) = Some c ->
                    p c = false).
Proof.
  induction fuel as [|fuel IH]; intros current character value Hle Hfuel;
    simpl; destruct (nth_error content current) as [c|] eqn:Hc.
  - apply nth_error_lt in Hc; lia.
  - exists 0; rewrite !Nat.add_0_r, app_nil_r; repeat split; auto.
    intros c; congruence.
  - destruct (p c) eqn:Hp.
    + pose proof (nth_error_lt _ _ _ _ Hc) as Hlt.
      destruct (IH (current + 1) (character + 1) (value ++ [c]))
        as (k & Hrun & Hend & Hall & Hstop); try lia.
      exists (S k); rewrite Hrun, (slice_S _ _ k _ Hc), <- app_assoc; simpl.
      rewrite Hp, Hall.
      replace (current + S k) with (current + 1 + k) by lia.
      replace (character + S k) with (character + 1 + k) by lia.
      repeat split; auto.
    + exists 0; rewrite !Nat.add_0_r, app_nil_r; repeat split; auto.
      intros c'; congruence.
  - exists 0; rewrite !Nat.add_0_r, app_nil_r; repeat split; auto.
    intros c; congruence.
Qed.

Lemma isIdentStart_part (c : codeUnit) :
  isIdentStart c = true -> isIdentPart c = true.
Proof.
  unfold isIdentStart, isIdentPart; intros H.
  repeat (apply orb_true_iff in H; destruct H as [H|H]);
    rewrite H; repeat rewrite orb_true_r; reflexivity.
Qed.

Ltac slice_width :=
  match goal with
  | |- context [?a + ?k - ?a] =>
      replace (a + k - a) with k by lia
  end.

Ltac token_case :=
  right; eexists; eexists; (split; [eassumption|]); (split; [assumption|]);
  (split; [reflexivity|]).

Lemma step_advances (st : Lexer.state) (char : codeUnit) :
  nth_error content (Lexer.current st) = Some char ->
  exists st', Lexer.step content st char = Done st' /\ advances content st st'.
Proof.
  destruct st as [current line character tokens]; intros Hc.
  simpl in Hc; pose proof (nth_error_lt _ _ _ _ Hc) as Hlt.
  unfold Lexer.step, advances.
  destruct (isSpace char) eqn:Hsp.
  { destruct (char =? newline)%N; eexists; (split; [reflexivity|]);
      simpl; (split; [lia|]); left; (split; [reflexivity|]);
      exists char; slice_width; split; auto using slice_1. }
  destruct (isDigit char) eqn:Hdig.
  { destruct (consume_spec isDigit (List.length content) current character [])
      as (k & Hrun & Hend & _ & Hstop); try lia.
    rewrite Hrun; simpl; eexists; (split; [reflexivity|]); simpl.
    assert (k <> 0).
    { intros ->; rewrite Nat.add_0_r in Hstop.
      rewrite (Hstop _ Hc) in Hdig; discriminate. }
    split; [lia|]; token_case.
    simpl; slice_width; split; [reflexivity|discriminate]. }
  destruct (isIdentStart char) eqn:Hid.
  { destruct (consume_spec isIdentPart (List.length content) current
                           character [])
      as (k & Hrun & Hend & _ & Hstop); try lia.
    rewrite Hrun; simpl; eexists; (split; [reflexivity|]); simpl.
    assert (k <> 0).
    { intros ->; rewrite Nat.add_0_r in Hstop.
      specialize (Hstop _ Hc).
      rewrite (isIdentStart_part _ Hid) in Hstop; discriminate. }
    split; [lia|]; token_case.
    simpl; slice_width; split; [reflexivity|].
    match goal with
    | |- context [if ?b then _ else _] => destruct b
    end; discriminate. }
  destruct (char =? quote)%N eqn:Hq.
  { destruct (consume_spec (fun c => negb (c =? quote)%N)
                           (List.length content) (current + 1)
                           (character + 1) [char])
      as (k & Hrun & Hend & _ & _); try lia.
    rewrite Hrun; simpl.
    destruct (nth_error content (current + 1 + k)) as [c|] eqn:Hnext;
      [destruct (c =? quote)%N eqn:Hcq|];
      eexists; (split; [reflexivity|]); simpl.
    - apply nth_error_lt in Hnext as Hlt'.
      split; [lia|]; token_case.
      simpl; split; [|discriminate].
      replace (current + 1 + k + 1 - current) with (S (k + 1)) by lia.
      apply N.eqb_eq in Hcq; subst c.
      rewrite (slice_S _ _ _ _ Hc), (slice_snoc _ _ _ _ Hnext).
      reflexivity.
    - split; [lia|]; token_case.
      simpl; split; [|discriminate].
      replace (current + 1 + k - current) with (S k) by lia.
      now rewrite (slice_S _ _ _ _ Hc).
    - split; [lia|]; token_case.
      simpl; split; [|discriminate].
      replace (current + 1 + k - current) with (S k) by lia.
      now rewrite (slice_S _ _ _ _ Hc). }
  destruct (has operators [char]) eqn:Hop.
  { destruct (nth_error content (current + 1)) as [nextChar|] eqn:Hnext;
      [destruct (has operators [char; nextChar])|];
      eexists; (split; [reflexivity|]); simpl.
    - apply nth_error_lt in Hnext as Hlt'.
      split; [lia|]; token_case.
      simpl; split; [|discriminate].
      replace (current + 1 + 1 - current) with 2 by lia.
      apply (slice_2 _ _ _ _ Hc Hnext).
    - split; [lia|]; token_case.
      simpl; slice_width; split; [|discriminate].
      apply (slice_1 _ _ _ Hc).
    - split; [lia|]; token_case.
      simpl; slice_width; split; [|discriminate].
      apply (slice_1 _ _ _ Hc). }
  eexists; (split; [reflexivity|]); simpl.
  split; [lia|]; token_case.
  simpl; slice_width; split; [|discriminate].
  apply (slice_1 _ _ _ Hc).
Qed.

(** An invariant of the iterations holds of the state the loop ends in;
    the loop ends, within [content.length - current] iterations, with
    the whole input read. *)
Lemma loop_invariant (P : Lexer.state -> Prop) :
  (forall st st', P st -> advances content st st' -> P st') ->
  forall fuel st,
    Lexer.current st <= List.length content ->
    List.length content - Lexer.current st <= fuel ->
    P st ->
    exists st',
      Lexer.loop fuel content st = Done st'
      /\ P st' /\ Lexer.current st' = List.length content.
Proof.
  intros Hstep; induction fuel as [|fuel IH]; intros st Hle Hfuel HP;
    simpl; destruct (nth_error content (Lexer.current st)) as [char|] eqn:Hc.
  - apply nth_error_lt in Hc; lia.
  - apply nth_error_None in Hc; exists st; repeat split; auto; lia.
  - destruct (step_advances st char Hc) as (st1 & Hrun & Hadv).
    rewrite Hrun; simpl.
    pose proof Hadv as ([? ?] & _).
    apply IH; try lia; eauto.
  - apply nth_error_None in Hc; exists st; repeat split; auto; lia.
Qed.

(** More fuel does not change a result. *)
Lemma loop_more_fuel (fuel extra : nat) :
  forall st st',
    Lexer.loop fuel content st = Done st' ->
    Lexer.loop (fuel + extra) content st = Done st'.
Proof.
  induction fuel as [|fuel IH]; intros st st'; simpl;
    destruct (nth_error content (Lexer.current st)) as [char|] eqn:Hc;
    try discriminate.
  - destruct extra; simpl; now rewrite Hc.
  - destruct (Lexer.step content st char) as [st1| |]; simpl;
      try discriminate.
    apply IH.
  - auto.
Qed.

End LexerLoops.

(** ** The lexer: totality, coverage, token types *)

Lemma weave_tail (gaps : list jsstring) (toks : list Token.t)
    (tail more : jsstring) :
  weave gaps toks (tail ++ more) = weave gaps toks tail ++ more.
Proof.
  revert toks; induction gaps as [|g gaps IH]; intros [|t toks]; simpl; auto.
  now rewrite IH, !app_assoc.
Qed.

Lemma weave_snoc (gaps : list jsstring) (toks : list Token.t)
    (g : jsstring) (t : Token.t) (tail : jsstring) :
  List.length gaps = List.length toks ->
  weave (gaps ++ [g]) (toks ++ [t]) tail
  = weave gaps toks (g ++ Token.value t ++ tail).
Proof.
  revert toks; induction gaps as [|g' gaps IH]; intros [|t' toks] H;
    simpl in *; try discriminate; auto.
  rewrite IH; auto.
Qed.

(** C6. Lexer totality: on every input string [tokenize] ends and returns
    a token list; it raises nothing, and [content.length] iterations of
    its loop, or any larger number, give that same list.  The empty string
    and a string of white space give the empty list, a string of
    unrecognised symbols gives one UNKNOWN token for each. *)
Theorem tokenize_total :
  (forall content,
     exists toks,
       Lexer.tokenize content = Done toks
       /\ forall extra,
            Lexer.tokenize_fuel (List.length content + extra) content
            = Done toks)
  /\ Lexer.tokenize [] = Done []
  /\ Lexer.tokenize [32; 9; 10; 13; 32]%N = Done []
  /\ Lexer.tokenize (js "@#")
     = Done [Token.mk UNKNOWN (js "@") (Position.mk 0 0) 1;
             Token.mk UNKNOWN (js "#") (Position.mk 0 1) 1].
Proof.
  split; [|repeat split; reflexivity].
  intros content.
  destruct (loop_invariant content (fun _ => True) (fun _ _ _ _ => I)
              (List.length content) Lexer.init)
    as (st & Hrun & _ & _); simpl; try lia; auto.
  exists (Lexer.tokens st); unfold Lexer.tokenize, Lexer.tokenize_fuel.
  split; [now rewrite Hrun|].
  intros extra; now rewrite (loop_more_fuel _ _ extra _ _ Hrun).
Qed.

(** C5. Coverage round trip: [tokenize] reads its input to the end, and the
    values of the tokens, in the order of emission, with the skipped white
    space put back between them ([gaps] in front of each token, [tail]
    after the last), are the input, code unit for code unit.  The pieces
    put back are white space only and every token text begins with a code
    unit that is none, so they are the white space that was skipped, no
    more and no less. *)
Theorem tokenize_coverage (content : jsstring) :
  exists toks gaps tail,
    Lexer.tokenize content = Done toks
    /\ List.length gaps = List.length toks
    /\ Forall allSpace (tail :: gaps)
    /\ Forall startsVisible toks
    /\ weave gaps toks tail = content.
Proof.
  set (P := fun st =>
         exists gaps tail,
           List.length gaps = List.length (Lexer.tokens st)
           /\ Forall allSpace (tail :: gaps)
           /\ Forall startsVisible (Lexer.tokens st)
           /\ weave gaps (Lexer.tokens st) tail
              = firstn (Lexer.current st) content).
  destruct (loop_invariant content P) with
    (fuel := List.length content) (st := Lexer.init)
    as (st & Hrun & (gaps & tail & Hlen & Hws & Hvis & Hweave) & Hend);
    simpl; try lia.
  - intros st st' (gaps & tail & Hlen & Hws & Hvis & Hweave)
           ([Hlt Hle] & Hadv).
    assert (Hcut : firstn (Lexer.current st') content
                   = firstn (Lexer.current st) content
                     ++ slice content (Lexer.current st)
                          (Lexer.current st' - Lexer.current st)).
    { rewrite <- firstn_plus_slice; f_equal; lia. }
    inversion Hws as [|? ? Htail Hgaps]; subst.
    destruct Hadv as [(Htoks & c & Hslice & Hsp)
                     |(tok & c & Hc & Hnsp & Htoks & Hslice & _)].
    + exists gaps, (tail ++ [c]); rewrite Htoks, Hcut, Hslice.
      repeat split; auto.
      * constructor; auto.
        unfold allSpace in *; rewrite forallb_app, Htail; simpl.
        now rewrite Hsp.
      * now rewrite weave_tail, Hweave.
    + exists (gaps ++ [tail]), []; rewrite Htoks, Hcut, Hslice.
      repeat split.
      * rewrite !length_app; simpl; lia.
      * constructor; [reflexivity|].
        apply Forall_app; split; auto.
      * apply Forall_app; split; auto; constructor; auto.
        unfold startsVisible; rewrite <- Hslice.
        replace (Lexer.current st' - Lexer.current st)
          with (S (Lexer.current st' - Lexer.current st - 1)) by lia.
        now rewrite (slice_S _ _ _ _ Hc).
      * rewrite weave_snoc by assumption.
        now rewrite app_nil_r, weave_tail, Hweave.
  - exists [], []; repeat split; auto.
    repeat constructor.
  - exists (Lexer.tokens st), gaps, tail.
    unfold Lexer.tokenize, Lexer.tokenize_fuel; rewrite Hrun; simpl.
    rewrite Hend, firstn_all in Hweave; auto.
Qed.

Lemma operator_char (c : codeUnit) :
  has operators [c] = true -> In c operatorChars.
Proof.
  unfold has; intros H; apply existsb_exists in H.
  destruct H as (op & Hin & Heq); apply str_eqb_eq in Heq; subst op.
  unfold operators in Hin; simpl in Hin.
  repeat (destruct Hin as [Hin|Hin];
          [inversion Hin; subst; simpl; tauto|]).
  destruct Hin.
Qed.

Lemma operator_char_class (c : codeUnit) :
  has operators [c] = true ->
  isSpace c = false /\ isDigit c = false /\ isIdentStart c = false
  /\ (c =? quote)%N = false.
Proof.
  intros H; apply operator_char in H; unfold operatorChars in H; simpl in H.
  repeat (destruct H as [H|H]; [subst c; repeat split; reflexivity|]).
  destruct H.
Qed.

Lemma digit_not_space (c : codeUnit) : isDigit c = true -> isSpace c = false.
Proof.
  unfold isDigit, isSpace; intros H.
  apply andb_true_iff in H; destruct H as [H1 H2].
  apply N.leb_le in H1; apply N.leb_le in H2.
  repeat match goal with
         | |- context [(?a <=? ?b)%N] =>
             destruct (N.leb_spec a b); try lia
         | |- context [(?a =? ?b)%N] =>
             destruct (N.eqb_spec a b); try lia
         end; reflexivity.
Qed.

(** C9. No token of [tokenize] has type PUNCTUATION, whatever the input;
    and where the lexer stands on a one-character member of [operators]
    (braces, brackets, parentheses and the semicolon among them) the token
    it pushes there has type OPERATOR. *)
Theorem tokenize_no_punctuation :
  (forall content,
     exists toks,
       Lexer.tokenize content = Done toks
       /\ Forall (fun t => Token.type t <> PUNCTUATION) toks)
  /\ (forall content st c,
        nth_error content (Lexer.current st) = Some c ->
        has operators [c] = true ->
        exists st' v,
          Lexer.step content st c = Done st'
          /\ Lexer.tokens st'
             = Lexer.tokens st
               ++ [Token.mk OPERATOR v
                     (Position.mk (Lexer.line st) (Lexer.character st))
                     (List.length v)]).
Proof.
  split.
  - intros content.
    destruct (loop_invariant content
                (fun st => Forall (fun t => Token.type t <> PUNCTUATION)
                                  (Lexer.tokens st)))
      with (fuel := List.length content) (st := Lexer.init)
      as (st & Hrun & Hall & _); simpl; try lia; auto.
    + intros st st' Hall (_ & [(-> & _)|(tok & c & _ & _ & -> & _ & Hty)]);
      auto.
      apply Forall_app; split; auto.
    + exists (Lexer.tokens st); unfold Lexer.tokenize, Lexer.tokenize_fuel.
      rewrite Hrun; auto.
  - intros content [current line character tokens] c Hc Hop.
    destruct (operator_char_class c Hop) as (Hsp & Hdig & Hid & Hq).
    unfold Lexer.step; rewrite Hsp, Hdig, Hid, Hq, Hop.
    destruct (nth_error content (current + 1)) as [nextChar|];
      [destruct (has operators [c; nextChar])|];
      eexists; eexists; split; reflexivity.
Qed.

(** The rule applied to the input made of an opening brace. *)
Lemma tokenize_no_punctuation_witness :
  nth_error (js "{") (Lexer.current Lexer.init) = Some 123%N
  /\ has operators [123%N] = true
  /\ exists st' v,
       Lexer.step (js "{") Lexer.init 123%N = Done st'
       /\ Lexer.tokens st'
          = Lexer.tokens Lexer.init
            ++ [Token.mk OPERATOR v
                  (Position.mk (Lexer.line Lexer.init)
                               (Lexer.character Lexer.init))
                  (List.length v)].
Proof.
  split; [reflexivity|]; split; [reflexivity|].
  apply (proj2 tokenize_no_punctuation (js "{") Lexer.init 123%N);
    reflexivity.
Defined.

(** C7. Number lexing.  Where the lexer stands on a digit, one iteration
    pushes one NUMBER token: its value is the run of [k >= 1] digits that
    starts there, the run is maximal (the input ends after it or goes on
    with a code unit that is no digit), and nothing else, no sign, point or
    exponent, is read into it.  So "3.14" is NUMBER "3", UNKNOWN ".",
    NUMBER "14". *)
Theorem tokenize_number :
  (forall content st c,
     nth_error content (Lexer.current st) = Some c ->
     isDigit c = true ->
     exists k,
       0 < k
       /\ Lexer.step content st c
          = Done (Lexer.mk (Lexer.current st + k) (Lexer.line st)
                    (Lexer.character st + k)
                    (Lexer.tokens st
                     ++ [Token.mk NUMBER
                           (slice content (Lexer.current st) k)
                           (Position.mk (Lexer.line st) (Lexer.character st))
                           k]))
       /\ Lexer.current st + k <= List.length content
       /\ forallb isDigit (slice content (Lexer.current st) k) = true
       /\ (forall d, nth_error content (Lexer.current st + k) = Some d ->
                     isDigit d = false))
  /\ Lexer.tokenize (js "3.14")
     = Done [Token.mk NUMBER (js "3") (Position.mk 0 0) 1;
             Token.mk UNKNOWN (js ".") (Position.mk 0 1) 1;
             Token.mk NUMBER (js "14") (Position.mk 0 2) 2].
Proof.
  split; [|reflexivity].
  intros content [current line character tokens] c Hc Hdig; simpl in *.
  pose proof (nth_error_lt _ _ _ _ Hc) as Hlt.
  destruct (consume_spec content isDigit (List.length content) current
                         character [])
    as (k & Hrun & Hend & Hall & Hstop); try lia.
  exists k.
  assert (Hk : 0 < k).
  { destruct k; [|lia]; rewrite Nat.add_0_r in Hstop.
    rewrite (Hstop _ Hc) in Hdig; discriminate. }
  assert (Hlen : List.length (slice content current k) = k).
  { unfold slice; rewrite length_firstn, length_skipn; lia. }
  unfold Lexer.step; rewrite (digit_not_space _ Hdig), Hdig, Hrun; simpl.
  rewrite Hlen; repeat split; auto.
Qed.

(** The rule applied at the start of "3.14". *)
Lemma tokenize_number_witness :
  nth_error (js "3.14") (Lexer.current Lexer.init) = Some 51%N
  /\ isDigit 51%N = true
  /\ exists k,
       0 < k
       /\ Lexer.step (js "3.14") Lexer.init 51%N
          = Done (Lexer.mk (0 + k) 0 (0 + k)
                    [Token.mk NUMBER (slice (js "3.14") 0 k)
                              (Position.mk 0 0) k])
       /\ 0 + k <= 4
       /\ forallb isDigit (slice (js "3.14") 0 k) = true
       /\ (forall d, nth_error (js "3.14") (0 + k) = Some d ->
                     isDigit d = false).
Proof.
  split; [reflexivity|]; split; [reflexivity|].
  apply (proj1 tokenize_number (js "3.14") Lexer.init 51%N); reflexivity.
Defined.

(** ** The validator: its loops and its invariant *)

Section ValidatorLoops.

Variable tokens : list Token.t.

Lemma anchored_createError (token : Token.t) (message : jsstring) :
  In token tokens ->
anchored tokens (Validator.createError token message).
Proof. intros H; exists token, message; auto. Qed.

Lemma Forall_snoc (A : Type) (P : A -> Prop) (l : list A) (x : A) :
  Forall P l -> P x -> Forall P (l ++ [x]).
Proof. intros Hl Hx; apply Forall_app; auto. Qed.

Lemma tokenOr_In (i : nat) (token : Token.t) :
  In token tokens -> In (Validator.tokenOr tokens i token) tokens.
Proof.
  intros H; unfold Validator.tokenOr.
  destruct (nth_error tokens i) eqn:E; eauto using nth_error_In.
Qed.

Hint Resolve anchored_createError Forall_snoc tokenOr_In nth_error_In
  : validator.

Lemma missing_false (i : nat) (p : Token.t -> bool) :
  Validator.missing tokens i p = false ->
  exists t, nth_error tokens i = Some t /\ p t = true.
Proof.
  unfold Validator.missing; destruct (nth_error tokens i) as [t|];
    try discriminate.
  intros H; exists t; split; auto.
  now apply negb_false_iff.
Qed.

Lemma present_true (i : nat) (p : Token.t -> bool) :
  Validator.present tokens i p = true ->
  exists t, nth_error tokens i = Some t /\ p t = true.
Proof.
  unfold Validator.present; destruct (nth_error tokens i) as [t|];
    try discriminate.
  intros H; exists t; auto.
Qed.

Lemma tokenBefore_Done (current : nat) :
  0 < current <= List.length tokens ->
  exists t, Validator.tokenBefore tokens current = Done t /\ In t tokens.
Proof.
  intros [Hpos Hle]; destruct current as [|i]; [lia|].
  unfold Validator.tokenBefore, Validator.tokenAt.
  destruct (nth_error tokens i) as [t|] eqn:E.
  - exists t; eauto using nth_error_In.
  - apply nth_error_None in E; lia.
Qed.

(** The initializer loop ends inside the token list, on a semicolon or
    at the end, and adds anchored diagnostics only. *)
Lemma scanInitializer_spec (declaredVariables : list jsstring)
    (fuel : nat) :
  forall current diagnostics,
    current <= List.length tokens ->
    List.length tokens - current <= fuel ->
    Forall (anchored tokens) diagnostics ->
    exists current' diagnostics',
      Validator.scanInitializer fuel tokens declaredVariables current
                                diagnostics
      = Done (current', diagnostics')
      /\ current <= current' <= List.length tokens
      /\ Forall (anchored tokens) diagnostics'.
Proof.
  induction fuel as [|fuel IH]; intros current diagnostics Hle Hfuel Hds;
    simpl; destruct (nth_error tokens current) as [t|] eqn:Ht;
    try (exists current, diagnostics; repeat split; auto; lia).
  - apply nth_error_lt in Ht; lia.
  - pose proof (nth_error_lt _ _ _ _ Ht) as Hlt.
    destruct (negb (Validator.valueIs t ";"));
      [|exists current, diagnostics; repeat split; auto; lia].
    match goal with
    | |- context [Validator.scanInitializer _ _ _ _ ?ds] =>
        destruct (IH (current + 1) ds) as (c' & ds' & Hrun & Hb & Hds')
    end; try lia.
    + destruct (_ && _); eauto with validator.
    + exists c', ds'; repeat split; auto; lia.
Qed.

(** The parenthesis loop ends inside the token list. *)
Lemma skipParens_spec (fuel : nat) :
  forall current parenCount,
    current <= List.length tokens ->
    List.length tokens - current <= fuel ->
    exists current' parenCount',
      Validator.skipParens fuel tokens current parenCount
      = Done (current', parenCount')
      /\ current <= current' <= List.length tokens.
Proof.
  induction fuel as [|fuel IH]; intros current parenCount Hle Hfuel;
    simpl; destruct (nth_error tokens current) as [t|] eqn:Ht;
    try (exists current, parenCount; repeat split; auto; lia).
  - apply nth_error_lt in Ht; lia.
  - pose proof (nth_error_lt _ _ _ _ Ht) as Hlt.
    destruct (0 <? parenCount)%Z;
      [|exists current, parenCount; repeat split; auto; lia].
    match goal with
    | |- context [Validator.skipParens _ _ _ ?pc] =>
        destruct (IH (current + 1) pc) as (c' & pc' & Hrun & Hb)
    end; try lia.
    exists c', pc'; repeat split; auto; lia.
Qed.

Lemma closeBrace_good (blockStack : list BlockContext.t) :
  Forall (goodBlock tokens) blockStack ->
  Forall (goodBlock tokens) (Validator.closeBrace blockStack).
Proof.
  intros H; destruct H as [|block below [Hin Hcount] Hbelow]; simpl; auto.
  destruct (BlockContext.braceCount block - 1 =? 0)%Z eqn:E; auto.
  apply Z.eqb_neq in E; constructor; auto.
  split; simpl; auto; lia.
Qed.

Lemma openBrace_good (blockStack : list BlockContext.t) (current : nat) :
  Forall (goodBlock tokens) blockStack ->
  Forall (goodBlock tokens) (Validator.openBrace blockStack current).
Proof.
  intros H; destruct H as [|block below [Hin Hcount] Hbelow]; simpl; auto.
  destruct (negb _); constructor; auto; split; simpl; auto; lia.
Qed.

Lemma reportUnclosed_anchored (blockStack : list BlockContext.t)
    (diagnostics : list Diagnostic.t) :
  Forall (goodBlock tokens) blockStack ->
  Forall (anchored tokens) diagnostics ->
  Forall (anchored tokens) (Validator.reportUnclosed diagnostics blockStack).
Proof.
  unfold Validator.reportUnclosed; intros Hbs.
  apply Forall_rev in Hbs; revert diagnostics.
  induction Hbs as [|block below [Hin _] _ IH]; intros diagnostics Hds;
    simpl; auto.
  apply IH; destruct (0 <? _)%Z; auto with validator.
Qed.

Ltac done_case :=
  eexists; split; [reflexivity|]; split; [simpl; lia|];
  split; simpl; eauto 6 with validator.

Lemma caseVar_spec (st : Validator.state) (token : Token.t) :
  Inv tokens st -> nth_error tokens (Validator.current st) = Some token ->
  stepsTo tokens st (Validator.caseVar tokens st token).
Proof.
  destruct st as [diagnostics declared blockStack current].
  intros [Hds Hbs] Htok; simpl in *; unfold stepsTo, Validator.caseVar.
  apply nth_error_In in Htok as Hin.
  destruct (Validator.missing tokens (current + 1) _) eqn:M1;
    [done_case|].
  apply missing_false in M1 as (ident & Hident & _).
  unfold Validator.tokenAt; rewrite Hident; simpl.
  destruct (Validator.missing tokens (current + 2) _) eqn:M2;
    [done_case|].
  apply missing_false in M2 as (eq & Heq & _).
  apply nth_error_lt in Heq.
  destruct (scanInitializer_spec
              (add declared (Token.value ident)) (List.length tokens)
              (current + 3) diagnostics)
    as (current' & diagnostics' & Hrun & Hb & Hds'); try lia; auto.
  rewrite Hrun; simpl.
  destruct (Validator.missing tokens current' _); [|done_case].
  destruct (tokenBefore_Done current') as (last & Hlast & Hin');
    [lia|].
  rewrite Hlast; simpl; done_case.
Qed.

Lemma caseMeow_spec (st : Validator.state) (token : Token.t) :
  Inv tokens st -> nth_error tokens (Validator.current st) = Some token ->
  stepsTo tokens st (Validator.caseMeow tokens st token).
Proof.
  destruct st as [diagnostics declared blockStack current].
  intros [Hds Hbs] Htok; simpl in *; unfold stepsTo, Validator.caseMeow.
  apply nth_error_In in Htok as Hin.
  destruct (Validator.missing tokens (current + 1) _) eqn:M1;
    [done_case|].
  apply missing_false in M1 as (par & Hpar & _).
  apply nth_error_lt in Hpar.
  destruct (skipParens_spec (List.length tokens) (current + 2) 1)
    as (current' & parenCount & Hrun & Hb); try lia.
  rewrite Hrun; simpl.
  destruct (0 <? parenCount)%Z; done_case.
Qed.

Lemma caseIf_spec (st : Validator.state) (token : Token.t) :
  Inv tokens st -> nth_error tokens (Validator.current st) = Some token ->
  stepsTo tokens st (Validator.caseIf tokens st token).
Proof.
  destruct st as [diagnostics declared blockStack current].
  intros [Hds Hbs] Htok; simpl in *; unfold stepsTo, Validator.caseIf.
  apply nth_error_In in Htok as Hin.
  destruct (Validator.missing tokens (current + 1) _) eqn:M1;
    [done_case|].
  apply missing_false in M1 as (par & Hpar & _).
  apply nth_error_lt in Hpar.
  destruct (skipParens_spec (List.length tokens) (current + 2) 1)
    as (current' & parenCount & Hrun & Hb); try lia.
  rewrite Hrun; simpl.
  destruct (0 <? parenCount)%Z; [done_case|].
  destruct (Validator.present tokens current' _); done_case.
  constructor; auto; split; simpl; auto; lia.
Qed.

(** The [else if] part ends without a fault, either by [continue] or
    by reaching the brace test, and has moved forward. *)
Lemma elseIf_spec (st : Validator.state) (current1 : nat) :
  Inv tokens st -> 0 < current1 <= List.length tokens ->
  exists r,
    Validator.elseIf tokens st current1 = Done r
    /\ match r with
       | inl st' => current1 <= Validator.current st' /\ Inv tokens st'
       | inr current' => current1 <= current'
       end.
Proof.
  destruct st as [diagnostics declared blockStack current].
  intros [Hds Hbs] Hb1; simpl in *; unfold Validator.elseIf.
  destruct (Validator.present tokens current1 _) eqn:P1;
    [|eexists; split; [reflexivity|]; simpl; lia].
  apply present_true in P1 as (kw & Hkw & _).
  apply nth_error_lt in Hkw as Hlt.
  destruct (Validator.missing tokens (current1 + 1) _) eqn:M2.
  - destruct (tokenBefore_Done (current1 + 1)) as (prev & Hprev & Hin);
      [lia|].
    rewrite Hprev; simpl.
    eexists; split; [reflexivity|]; simpl.
    split; [lia|]; split; simpl; auto with validator.
  - apply missing_false in M2 as (par & Hpar & _).
    apply nth_error_lt in Hpar.
    destruct (skipParens_spec (List.length tokens) (current1 + 1 + 1) 1)
      as (current3 & parenCount & Hrun & Hb); try lia.
    rewrite Hrun; simpl.
    destruct (0 <? parenCount)%Z;
      [|eexists; split; [reflexivity|]; simpl; lia].
    destruct (tokenBefore_Done current3) as (prev & Hprev & Hin); [lia|].
    rewrite Hprev; simpl.
    eexists; split; [reflexivity|]; simpl.
    split; [lia|]; split; simpl; auto with validator.
Qed.

Lemma caseElse_spec (st : Validator.state) (token : Token.t) :
  Inv tokens st -> nth_error tokens (Validator.current st) = Some token ->
  stepsTo tokens st (Validator.caseElse tokens st token).
Proof.
  intros HInv Htok.
  apply nth_error_In in Htok as Hin; apply nth_error_lt in Htok as Hlt.
  destruct (elseIf_spec st (Validator.current st + 1) HInv)
    as (r & Hrun & Hr); [lia|].
  destruct st as [diagnostics declared blockStack current].
  destruct HInv as [Hds Hbs]; simpl in *.
  unfold stepsTo, Validator.caseElse.
  destruct (negb _); [done_case|].
  rewrite Hrun; simpl.
  destruct r as [st'|current'].
  - destruct Hr as [Hle HInv'].
    exists st'; repeat split; try apply HInv'; simpl; lia.
  - destruct (Validator.present tokens current' _); done_case.
    constructor; auto; split; simpl; auto; lia.
Qed.

Lemma body_spec (st : Validator.state) (token : Token.t) :
  Inv tokens st -> nth_error tokens (Validator.current st) = Some token ->
  stepsTo tokens st (Validator.body tokens st token).
Proof.
  intros HInv Htok.
  pose proof (caseVar_spec st token HInv Htok) as Hvar.
  pose proof (caseMeow_spec st token HInv Htok) as Hmeow.
  pose proof (caseIf_spec st token HInv Htok) as Hif.
  pose proof (caseElse_spec st token HInv Htok) as Helse.
  apply nth_error_In in Htok as Hin.
  destruct st as [diagnostics declared blockStack current].
  destruct HInv as [Hds Hbs]; simpl in *.
  unfold Validator.body.
  destruct (Validator.valueIs token "}");
    [unfold stepsTo; done_case; now apply closeBrace_good|].
  destruct (Validator.valueIs token "{");
    [unfold stepsTo; done_case; now apply openBrace_good|].
  destruct (Validator.typeIs token UNKNOWN); [unfold stepsTo; done_case|].
  destruct (Validator.typeIs token KEYWORD).
  - destruct (Validator.valueIs token "var"); auto.
    destruct (_ || _); auto.
    destruct (_ || _); auto.
    destruct (Validator.valueIs token "else"); auto.
    unfold stepsTo; done_case.
  - destruct (_ && _); unfold stepsTo; done_case.
Qed.

(** The main loop ends without a fault, within [tokens.length - current]
    iterations, and an invariant of the iterations that is at least
    [Inv] holds of the state it ends in. *)
Lemma validator_loop_spec (fuel : nat) :
  forall st,
    List.length tokens - Validator.current st <= fuel ->
    Inv tokens st ->
    exists st', Validator.loop fuel tokens st = Done st' /\ Inv tokens st'.
Proof.
  induction fuel as [|fuel IH]; intros st Hfuel HInv; simpl;
    destruct (nth_error tokens (Validator.current st)) as [token|] eqn:Ht;
    try (exists st; split; auto; fail).
  - apply nth_error_lt in Ht; lia.
  - destruct (body_spec st token HInv Ht) as (st1 & Hrun & Hlt & HInv1).
    rewrite Hrun; simpl; apply IH; auto; lia.
Qed.

Lemma validateSyntax_spec :
  exists ds,
    Validator.validateSyntax tokens = Done ds /\ Forall (anchored tokens) ds.
Proof.
  destruct (validator_loop_spec (List.length tokens) Validator.init)
    as (st & Hrun & Hds & Hbs); simpl; try lia.
  - split; constructor.
  - unfold Validator.validateSyntax, Validator.validateSyntax_fuel.
    rewrite Hrun; simpl; eexists; split; [reflexivity|].
    now apply reportUnclosed_anchored.
Qed.

End ValidatorLoops.

(** ** The validator: shape of the diagnostics, block stack *)

(** C8. Diagnostic shape: for every token sequence [validateSyntax] returns
    a list, and every diagnostic of it has severity 1 (Error), source
    "Catt LSP", and a range that runs from the position of a token of the
    input to that position moved right by the token's length, on the same
    line. *)
Theorem diagnostic_shape (tokens : list Token.t) :
  exists ds,
    Validator.validateSyntax tokens = Done ds
    /\ Forall
         (fun d =>
            Diagnostic.severity d = 1%Z
            /\ Diagnostic.source d = js "Catt LSP"
            /\ exists token,
                 In token tokens
                 /\ Diagnostic.range d
                    = Range.mk
                        (Token.position token)
                        (Position.mk
                           (Position.line (Token.position token))
                           (Position.character (Token.position token)
                            + Token.length token)))
         ds.
Proof.
  destruct (validateSyntax_spec tokens) as (ds & Hrun & Hds).
  exists ds; split; auto.
  eapply Forall_impl; [|exact Hds].
  intros d (token & message & Hin & ->); simpl.
  repeat split; auto.
  exists token; auto.
Qed.

Lemma reachable_Inv (tokens : list Token.t) (st : Validator.state) :
  reachable tokens st -> Inv tokens st.
Proof.
  induction 1 as [|st st' token _ IH Htok Hrun].
  - split; constructor.
  - destruct (body_spec tokens st token IH Htok) as (st1 & Hrun1 & _ & HInv).
    congruence.
Qed.

(** The state in which the main loop ends is a reachable one. *)
Lemma loop_reachable (tokens : list Token.t) (fuel : nat) :
  forall st st',
    reachable tokens st ->
    Validator.loop fuel tokens st = Done st' ->
    reachable tokens st'.
Proof.
  induction fuel as [|fuel IH]; intros st st' Hreach; simpl;
    destruct (nth_error tokens (Validator.current st)) as [token|] eqn:Ht;
    try discriminate; try (intros H; inversion H; subst; auto; fail).
  destruct (Validator.body tokens st token) as [st1| |] eqn:Hrun; simpl;
    try discriminate.
  apply IH; eapply reach_body; eauto.
Qed.

(** With every count positive, the end-of-pass report has one diagnostic
    for each block of the stack, bottom first. *)
Lemma reportUnclosed_all (blockStack : list BlockContext.t) :
  Forall (fun b => (1 <= BlockContext.braceCount b)%Z) blockStack ->
  forall diagnostics,
    Validator.reportUnclosed diagnostics blockStack
    = diagnostics ++ map unclosedError (rev blockStack).
Proof.
  unfold Validator.reportUnclosed; intros Hbs; apply Forall_rev in Hbs.
  induction Hbs as [|block below Hcount _ IH]; intros diagnostics; simpl.
  - now rewrite app_nil_r.
  - assert (Hguard : (0 <? BlockContext.braceCount block)%Z = true)
      by (apply Z.ltb_lt; lia).
    now rewrite Hguard, IH, <- app_assoc.
Qed.

(** C10. Block-stack invariant: in every state of the main loop, the
    initial one and the one each iteration leaves, each block on
    [blockStack] has [braceCount >= 1], so the guard [braceCount > 0] of
    the end-of-pass report holds for every block that is still there; and
    the pass ends in such a state, its report holding one diagnostic for
    each block left on the stack. *)
Theorem blockStack_invariant :
  (forall tokens st,
     reachable tokens st ->
     Forall (fun b => (1 <= BlockContext.braceCount b)%Z)
            (Validator.blockStack st)
     /\ forallb (fun b => (0 <? BlockContext.braceCount b)%Z)
                (Validator.blockStack st) = true)
  /\ (forall tokens,
        exists st,
          Validator.loop (List.length tokens) tokens Validator.init = Done st
          /\ reachable tokens st
          /\ Validator.validateSyntax tokens
             = Done (Validator.diagnostics st
                     ++ map unclosedError (rev (Validator.blockStack st)))).
Proof.
  assert (Hcounts : forall tokens st,
             reachable tokens st ->
             Forall (fun b => (1 <= BlockContext.braceCount b)%Z)
                    (Validator.blockStack st)).
  { intros tokens st Hreach; apply reachable_Inv in Hreach as [_ Hbs].
    eapply Forall_impl; [|exact Hbs]; now intros b [_ H]. }
  split.
  - intros tokens st Hreach; split; [eauto|].
    apply forallb_forall; intros b Hin.
    pose proof (Hcounts tokens st Hreach) as Hbs.
    rewrite Forall_forall in Hbs; specialize (Hbs b Hin).
    apply Z.ltb_lt; lia.
  - intros tokens.
    destruct (validator_loop_spec tokens (List.length tokens) Validator.init)
      as (st & Hrun & _); simpl; try lia.
    { split; constructor. }
    assert (Hreach : reachable tokens st)
      by (eapply loop_reachable; [apply reach_init|exact Hrun]).
    exists st; repeat split; auto.
    unfold Validator.validateSyntax, Validator.validateSyntax_fuel.
    rewrite Hrun; simpl.
    now rewrite (reportUnclosed_all _ (Hcounts tokens st Hreach)).
Qed.

(** The invariant in the state that the iteration on "if (a) {" leaves. *)
Lemma blockStack_invariant_witness :
  reachable tokens_if_open state_if_open
  /\ Forall (fun b => (1 <= BlockContext.braceCount b)%Z)
            (Validator.blockStack state_if_open)
  /\ forallb (fun b => (0 <? BlockContext.braceCount b)%Z)
             (Validator.blockStack state_if_open) = true.
Proof.
  assert (H : reachable tokens_if_open state_if_open).
  { eapply reach_body; [apply reach_init| |]; reflexivity. }
  split; [exact H|].
  exact (proj1 blockStack_invariant tokens_if_open state_if_open H).
Defined.

(** ** The validator: declarations, and the block that a keyword pushes *)

Lemma nth_error_at (A : Type) (pre l : list A) (k : nat) :
  nth_error (pre ++ l) (List.length pre + k) = nth_error l k.
Proof.
  rewrite nth_error_app2 by lia; f_equal; lia.
Qed.

(** The initializer loop over an initializer of silent tokens that a
    semicolon follows: it stops on the semicolon and reports nothing. *)
Lemma scanInitializer_silent (declared : list jsstring)
    (diagnostics : list Diagnostic.t) (semi : Token.t)
    (post : list Token.t) :
  Validator.valueIs semi ";" = true ->
  forall init pre fuel,
    Forall (initializerToken declared) init ->
    List.length init <= fuel ->
    Validator.scanInitializer fuel (pre ++ init ++ semi :: post) declared
                              (List.length pre) diagnostics
    = Done (List.length pre + List.length init, diagnostics).
Proof.
  intros Hsemi; induction init as [|t init IH]; intros pre fuel Hall Hfuel.
  - pose proof (nth_error_at _ pre (semi :: post) 0) as Hat.
    rewrite Nat.add_0_r in Hat; simpl in Hat.
    destruct fuel; simpl; rewrite Hat, Hsemi; simpl;
      now rewrite Nat.add_0_r.
  - inversion Hall as [|? ? [Hnot Hdecl] Hall']; subst.
    destruct fuel as [|fuel]; simpl in Hfuel; [lia|].
    pose proof (nth_error_at _ pre ((t :: init) ++ semi :: post) 0) as Hat.
    rewrite Nat.add_0_r in Hat; simpl in Hat.
    simpl; rewrite Hat, Hnot; simpl.
    assert (Hquiet : Validator.typeIs t IDENTIFIER
                     && negb (has declared (Token.value t)) = false).
    { destruct (Validator.typeIs t IDENTIFIER); auto.
      now rewrite Hdecl. }
    rewrite Hquiet.
    specialize (IH (pre ++ [t]) fuel Hall').
    rewrite <- app_assoc, length_app in IH; simpl in IH.
    rewrite IH by lia; f_equal; f_equal; lia.
Qed.

Lemma var_keyword_dispatch (kw : Token.t) :
  Validator.typeIs kw KEYWORD = true ->
  Validator.valueIs kw "var" = true ->
  Validator.valueIs kw "}" = false
  /\ Validator.valueIs kw "{" = false
  /\ Validator.typeIs kw UNKNOWN = false.
Proof.
  unfold Validator.typeIs, Validator.valueIs; intros Hty Hval.
  apply str_eqb_eq in Hval; rewrite Hval.
  destruct (Token.type kw); try discriminate; repeat split; reflexivity.
Qed.

(** The main loop over a list that continues with well-formed declarations,
    with an empty block stack and no diagnostic so far: it reaches the end
    of the list with no diagnostic and no block. *)
Lemma loop_varDeclarations (tokens : list Token.t) :
  forall declared suffix,
    varDeclarations declared suffix ->
    forall pre fuel,
      tokens = pre ++ suffix ->
      List.length suffix <= fuel ->
      exists declared',
        Validator.loop fuel tokens
          (Validator.mk [] declared [] (List.length pre))
        = Done (Validator.mk [] declared' [] (List.length tokens)).
Proof.
  induction 1 as [declared
                 |declared kw ident eq semi init rest
                    Hkw Hvar Hident Heq Hinit Hsemi _ IH];
    intros pre fuel Htokens Hfuel.
  - exists declared; subst tokens; rewrite app_nil_r.
    assert (Hnone : nth_error pre (List.length pre) = None)
      by (apply nth_error_None; lia).
    destruct fuel; simpl; now rewrite Hnone.
  - destruct fuel as [|fuel]; simpl in Hfuel; [lia|].
    set (suffix := kw :: ident :: eq :: init ++ semi :: rest) in *.
    assert (Hat : forall k,
               nth_error tokens (List.length pre + k) = nth_error suffix k)
      by (intros k; subst tokens; apply nth_error_at).
    pose proof (Hat 0) as H0; pose proof (Hat 1) as H1;
      pose proof (Hat 2) as H2; rewrite Nat.add_0_r in H0; simpl in H0, H1, H2.
    destruct (var_keyword_dispatch kw Hkw Hvar) as (Hclose & Hopen & Hunk).
    assert (Hscan :
              Validator.scanInitializer (List.length tokens) tokens
                (add declared (Token.value ident)) (List.length pre + 3) []
              = Done (List.length pre + 3 + List.length init, [])).
    { pose proof (scanInitializer_silent
                    (add declared (Token.value ident)) [] semi rest Hsemi
                    init (pre ++ [kw; ident; eq]) (List.length tokens)
                    Hinit) as Hrun.
      rewrite <- app_assoc, length_app in Hrun; simpl in Hrun.
      fold suffix in Hrun; rewrite <- Htokens in Hrun.
      apply Hrun; subst tokens suffix.
      rewrite length_app; simpl; rewrite length_app; lia. }
    assert (Hend : nth_error tokens (List.length pre + 3 + List.length init)
                   = Some semi).
    { replace (List.length pre + 3 + List.length init)
        with (List.length pre + (3 + List.length init)) by lia.
      rewrite Hat; unfold suffix; simpl.
      pose proof (nth_error_at _ init (semi :: rest) 0) as Hsemi'.
      now rewrite Nat.add_0_r in Hsemi'. }
    simpl; rewrite H0; simpl.
    unfold Validator.body; rewrite Hclose, Hopen, Hunk, Hkw, Hvar.
    unfold Validator.caseVar, Validator.missing, Validator.tokenAt.
    rewrite H1, Hident, H2, Heq; simpl.
    rewrite Hscan; simpl; rewrite Hend, Hsemi; simpl.
    destruct (IH (pre ++ kw :: ident :: eq :: init ++ [semi]) fuel)
      as (declared' & Hrun).
    + subst tokens suffix; rewrite <- app_assoc; simpl.
      now rewrite <- app_assoc.
    + unfold suffix in Hfuel; simpl in Hfuel.
      rewrite length_app in Hfuel; simpl in Hfuel; lia.
    + exists declared'; rewrite <- Hrun; f_equal; f_equal.
      rewrite length_app; simpl; rewrite length_app; simpl; lia.
Qed.

(** The part of the clean-program property that holds: a token list made
    of well-formed [var] declarations only gets no diagnostic. *)
Lemma varDeclarations_clean (tokens : list Token.t) :
  varDeclarations [] tokens -> Validator.validateSyntax tokens = Done [].
Proof.
  intros H.
  destruct (loop_varDeclarations tokens [] tokens H [] (List.length tokens))
    as (declared' & Hrun); auto.
  unfold Validator.validateSyntax, Validator.validateSyntax_fuel.
  simpl in Hrun; unfold Validator.init; now rewrite Hrun.
Qed.

(** Two declarations, the second of which uses the first name and its own. *)
Example varDeclarations_clean_text :
  exists tokens,
    Lexer.tokenize (js "var x = 5; var y = x + y;") = Done tokens
    /\ varDeclarations [] tokens
    /\ Validator.validateSyntax tokens = Done [].
Proof.
  eexists; split; [reflexivity|].
  set (semi1 := Token.mk OPERATOR (js ";") (Position.mk 0 9) 1).
  set (semi2 := Token.mk OPERATOR (js ";") (Position.mk 0 24) 1).
  set (init1 := [Token.mk NUMBER (js "5") (Position.mk 0 8) 1]).
  set (init2 := [Token.mk IDENTIFIER (js "x") (Position.mk 0 19) 1;
                 Token.mk OPERATOR (js "+") (Position.mk 0 21) 1;
                 Token.mk IDENTIFIER (js "y") (Position.mk 0 23) 1]).
  match goal with
  | |- varDeclarations [] ?l /\ _ => assert (H : varDeclarations [] l)
  end.
  { apply (decls_cons [] _ _ _ semi1 init1); try reflexivity.
    - repeat constructor; discriminate.
    - apply (decls_cons _ _ _ _ semi2 init2 []); try reflexivity.
      + repeat constructor; discriminate.
      + apply decls_nil. }
  split; [exact H|exact (varDeclarations_clean _ H)].
Qed.

(** The case shared by [for], [while] and [if] pushes a block or none, and
    the block it pushes has [isIf = true] whatever the keyword. *)
Lemma caseIf_block (tokens : list Token.t) (st st' : Validator.state)
    (token : Token.t) :
  Validator.caseIf tokens st token = Done st' ->
  Validator.blockStack st' = Validator.blockStack st
  \/ exists startIndex,
       Validator.blockStack st'
       = BlockContext.mk true token startIndex 1 :: Validator.blockStack st.
Proof.
  destruct st as [diagnostics declared blockStack current].
  unfold Validator.caseIf.
  destruct (Validator.missing tokens (current + 1) _).
  { intros H; inversion H; auto. }
  destruct (Validator.skipParens _ _ _ _) as [[current' parenCount]| |];
    simpl; try discriminate.
  destruct (0 <? parenCount)%Z; [intros H; inversion H; auto|].
  destruct (Validator.present tokens current' _);
    intros H; inversion H; simpl; eauto.
Qed.

(** An [else] with no block of [isIf = true] on the stack is reported. *)
Lemma caseElse_no_if (tokens : list Token.t) (st : Validator.state)
    (token : Token.t) :
  existsb BlockContext.isIf (Validator.blockStack st) = false ->
  Validator.caseElse tokens st token
  = Done (Validator.mk
            (Validator.diagnostics st
             ++ [Validator.createError token
                   (js "else statement without preceding if statement")])
            (Validator.declaredVariables st) (Validator.blockStack st)
            (Validator.current st + 1)).
Proof.
  destruct st as [diagnostics declared blockStack current]; simpl.
  intros H; unfold Validator.caseElse; now rewrite H.
Qed.

(** ** The two passes on given texts *)

Lemma str_eqb_refl (a : jsstring) : str_eqb a a = true.
Proof. now apply str_eqb_eq. Qed.

(** C4. Forward self-reference: a declaration whose initializer is the
    name it declares gets no diagnostic, as the name is in
    [declaredVariables] when the initializer is scanned; so
    "var x = x;" gets none.  The scan does report a name that is not in
    the set, as in "var x = y;". *)
Theorem var_self_reference :
  (forall kw ident eq use semi,
     Validator.typeIs kw KEYWORD = true ->
     Validator.valueIs kw "var" = true ->
     Validator.typeIs ident IDENTIFIER = true ->
     Validator.valueIs eq "=" = true ->
     Validator.typeIs use IDENTIFIER = true ->
     Token.value use = Token.value ident ->
     Validator.valueIs use ";" = false ->
     Validator.valueIs semi ";" = true ->
     Validator.validateSyntax [kw; ident; eq; use; semi] = Done [])
  /\ diagnosticItems (js "var x = x;") = Done []
  /\ diagnosticItems (js "var x = y;")
     = Done [Validator.createError
               (Token.mk IDENTIFIER (js "y") (Position.mk 0 8) 1)
               (js "Undefined variable " ++ [quote] ++ js "y" ++ [quote]
                ++ js " in initialization")].
Proof.
  split; [|split; reflexivity].
  intros kw ident eq use semi Hkw Hvar Hident Heq Huse Hname Hnot Hsemi.
  apply varDeclarations_clean.
  apply (decls_cons [] kw ident eq semi [use] []); auto.
  - constructor; [|constructor].
    split; auto; intros _.
    rewrite Hname; unfold add, has; simpl.
    now rewrite str_eqb_refl.
  - apply decls_nil.
Qed.

(** The rule at the tokens of "var x = x;". *)
Lemma var_self_reference_witness :
  Lexer.tokenize (js "var x = x;")
  = Done [Token.mk KEYWORD (js "var") (Position.mk 0 0) 3;
          Token.mk IDENTIFIER (js "x") (Position.mk 0 4) 1;
          Token.mk OPERATOR (js "=") (Position.mk 0 6) 1;
          Token.mk IDENTIFIER (js "x") (Position.mk 0 8) 1;
          Token.mk OPERATOR (js ";") (Position.mk 0 9) 1]
  /\ Validator.validateSyntax
       [Token.mk KEYWORD (js "var") (Position.mk 0 0) 3;
        Token.mk IDENTIFIER (js "x") (Position.mk 0 4) 1;
        Token.mk OPERATOR (js "=") (Position.mk 0 6) 1;
        Token.mk IDENTIFIER (js "x") (Position.mk 0 8) 1;
        Token.mk OPERATOR (js ";") (Position.mk 0 9) 1]
     = Done [].
Proof.
  split; [reflexivity|].
  apply (proj1 var_self_reference); reflexivity.
Defined.

(** C2. Condition opacity, on the two texts of the claim.  The name [y] in
    the condition of "if (y) { }" gets no diagnostic (the one diagnostic is
    about the block).  The name [y] in the body of "if (a) { y; }" gets
    none either: the token after the opening brace is stepped over, the
    cursor being advanced once where the block is pushed and once more at
    the end of the iteration. *)
Theorem condition_opacity_texts :
  diagnosticItems (js "if (y) { }")
  = Done [Validator.createError
            (Token.mk KEYWORD (js "if") (Position.mk 0 0) 2)
            (js "Unclosed block starting at position 4")]
  /\ diagnosticItems (js "if (a) { y; }") = Done []
  /\ diagnosticItems (js "if (a) { ; y; }")
     = Done [Validator.createError
               (Token.mk IDENTIFIER (js "y") (Position.mk 0 11) 1)
               (js "Undefined variable " ++ [quote] ++ js "y" ++ [quote])].
Proof. repeat split; reflexivity. Qed.

(** C1. Clean programs, on three of them, each made of well-formed
    declarations and balanced control blocks, with every name declared
    before it is used.  A block with an empty body is reported as unclosed,
    its closing brace being stepped over.  A declaration that opens a body
    loses its [var], so that its name is reported as undefined.  And the
    [else] of an [if] whose block is closed finds no block on the stack and
    is reported. *)
Theorem clean_program_texts :
  diagnosticItems (js "var a = 1; if (a) { }")
  = Done [Validator.createError
            (Token.mk KEYWORD (js "if") (Position.mk 0 11) 2)
            (js "Unclosed block starting at position 9")]
  /\ diagnosticItems (js "var a = 1; while (a) { var x = 2; }")
     = Done [Validator.createError
               (Token.mk IDENTIFIER (js "x") (Position.mk 0 27) 1)
               (js "Undefined variable " ++ [quote] ++ js "x" ++ [quote])]
  /\ diagnosticItems
       (js "var a = 1; if (a) { var x = 2; } else { var y = 3; }")
     = Done [Validator.createError
               (Token.mk IDENTIFIER (js "x") (Position.mk 0 24) 1)
               (js "Undefined variable " ++ [quote] ++ js "x" ++ [quote]);
             Validator.createError
               (Token.mk KEYWORD (js "else") (Position.mk 0 33) 4)
               (js "else statement without preceding if statement")].
Proof. repeat split; reflexivity. Qed.

(** C3. The pushed block of "while (a) {" and of "for (a) {" has
    [isIf = true], as that of "if (a) {" has, and an [else] inside a
    [while] body, with no [if] before it, gets no diagnostic. *)
Theorem while_block_isIf :
  (toks <- Lexer.tokenize (js "while (a) {") ;;
   st <- Validator.loop 5 toks Validator.init ;;
   Done (map BlockContext.isIf (Validator.blockStack st)))
  = Done [true]
  /\ (toks <- Lexer.tokenize (js "for (a) {") ;;
      st <- Validator.loop 5 toks Validator.init ;;
      Done (map BlockContext.isIf (Validator.blockStack st)))
     = Done [true]
  /\ diagnosticItems (js "while (a) { ; else { ; } }") = Done [].
Proof. repeat split; reflexivity. Qed.


(** * Further properties *)

(** ** The lexer: one iteration in full *)

Lemma length_slice (content : jsstring) (i k : nat) :
  i + k <= List.length content -> List.length (slice content i k) = k.
Proof.
  intros H; unfold slice; rewrite length_firstn, length_skipn; lia.
Qed.

Lemma operator_single (c : codeUnit) :
  has operators [c] = true -> In [c] operatorTexts.
Proof.
  intros H; apply operator_char in H; unfold operatorChars in H.
  simpl in H.
  repeat (destruct H as [H|H]; [subst c; simpl; tauto|]).
  destruct H.
Qed.

Lemma operator_pair (c n : codeUnit) :
  has operators [c] = true -> has operators [c; n] = true ->
  In [c; n] operatorTexts.
Proof.
  intros Hc H; unfold has in H; apply existsb_exists in H.
  destruct H as (op & Hin & Heq); apply str_eqb_eq in Heq; subst op.
  unfold operators in Hin; simpl in Hin.
  repeat (destruct Hin as [Hin|Hin];
          [inversion Hin; subst; try discriminate; simpl; tauto|]).
  destruct Hin.
Qed.

Lemma lexes_token (content : jsstring) (current line character : nat)
    (tokens : list Token.t) (c : codeUnit) (tok : Token.t)
    (current' character' : nat) :
  nth_error content current = Some c ->
  isSpace c = false ->
  Token.position tok = Position.mk line character ->
  tokenShape tok ->
  0 < List.length (Token.value tok) ->
  slice content current (List.length (Token.value tok)) = Token.value tok ->
  current' = current + List.length (Token.value tok) ->
  character' = character + List.length (Token.value tok) ->
  current' <= List.length content ->
  (Token.type tok = STRING ->
   closedString (Token.value tok) \/ current' = List.length content) ->
  lexes content (Lexer.mk current line character tokens)
        (Lexer.mk current' line character' (tokens ++ [tok])).
Proof.
  intros Hc Hsp Hpos Hshape Hlen Hslice Hcur Hchar Hle Hstr.
  unfold lexes; simpl; split; [lia|].
  exists c; split; auto; right; split; auto.
  exists tok; split; [reflexivity|].
  do 6 (split; [assumption || reflexivity|]); assumption.
Qed.

Section LexerSteps.

Variable content : jsstring.

#[local] Arguments has : simpl never.

Lemma step_lexes (st : Lexer.state) (char : codeUnit) :
  nth_error content (Lexer.current st) = Some char ->
  exists st', Lexer.step content st char = Done st' /\ lexes content st st'.
Proof.
  destruct st as [current line character tokens]; intros Hc.
  simpl in Hc; pose proof (nth_error_lt _ _ _ _ Hc) as Hlt.
  unfold Lexer.step.
  destruct (isSpace char) eqn:Hsp.
  { destruct (char =? newline)%N eqn:Hnl; eexists;
      (split; [reflexivity|]); unfold lexes; simpl; (split; [lia|]);
      exists char; (split; [assumption|]); left; rewrite Hnl;
      repeat split; auto. }
  destruct (isDigit char) eqn:Hdig.
  { destruct (consume_spec content isDigit (List.length content) current
                           character [])
      as (k & Hrun & Hend & Hall & Hstop); try lia.
    rewrite Hrun; simpl; eexists; (split; [reflexivity|]).
    assert (k <> 0).
    { intros ->; rewrite Nat.add_0_r in Hstop.
      rewrite (Hstop _ Hc) in Hdig; discriminate. }
    pose proof (length_slice content current k Hend) as Hlen.
    apply lexes_token with (c := char);
      [exact Hc|exact Hsp|reflexivity| |simpl; lia
      |simpl; now rewrite Hlen|simpl; lia|simpl; lia|simpl; lia
      |discriminate].
    split; [reflexivity|]; simpl; split; auto.
    intros E; rewrite E in Hlen; simpl in Hlen; lia. }
  destruct (isIdentStart char) eqn:Hid.
  { destruct (consume_spec content isIdentPart (List.length content) current
                           character [])
      as (k & Hrun & Hend & Hall & Hstop); try lia.
    rewrite Hrun; simpl; eexists; (split; [reflexivity|]).
    assert (Hk : k <> 0).
    { intros ->; rewrite Nat.add_0_r in Hstop.
      specialize (Hstop _ Hc).
      rewrite (isIdentStart_part _ Hid) in Hstop; discriminate. }
    pose proof (length_slice content current k Hend) as Hlen.
    assert (Hshaped : identShaped (slice content current k)).
    { destruct k as [|k]; [congruence|].
      unfold identShaped; rewrite (slice_S _ _ _ _ Hc).
      rewrite <- (slice_S _ _ _ _ Hc); auto. }
    apply lexes_token with (c := char);
      [exact Hc|exact Hsp|reflexivity| |simpl; lia
      |simpl; now rewrite Hlen|simpl; lia|simpl; lia|simpl; lia|].
    - split; [reflexivity|]; simpl.
      destruct (has keywords (slice content current k)) eqn:Hkw; simpl;
        split; auto.
    - simpl; destruct (has keywords (slice content current k));
        discriminate. }
  destruct (char =? quote)%N eqn:Hq.
  { apply N.eqb_eq in Hq; subst char.
    destruct (consume_spec content notQuote (List.length content)
                           (current + 1) (character + 1) [quote])
      as (k & Hrun & Hend & Hall & Hstop); try lia.
    unfold notQuote in Hrun at 1; rewrite Hrun; simpl.
    pose proof (length_slice content (current + 1) k Hend) as Hlen.
    destruct (nth_error content (current + 1 + k)) as [c|] eqn:Hnext;
      [destruct (c =? quote)%N eqn:Hcq|].
    - apply N.eqb_eq in Hcq; subst c.
      apply nth_error_lt in Hnext as Hlt'.
      assert (Hval : slice content current (S (k + 1))
                     = quote :: slice content (current + 1) k ++ [quote]).
      { now rewrite (slice_S _ _ _ _ Hc), (slice_snoc _ _ _ _ Hnext). }
      assert (Hclosed : closedString
                          (quote :: slice content (current + 1) k ++ [quote]))
        by (exists (slice content (current + 1) k); auto).
      eexists; (split; [reflexivity|]).
      apply lexes_token with (c := quote);
        [exact Hc|exact Hsp|reflexivity| |simpl; lia
        |simpl; rewrite length_app, Hlen; exact Hval
        |simpl; rewrite length_app, Hlen; simpl; lia
        |simpl; rewrite length_app, Hlen; simpl; lia
        |lia|intros _; left; exact Hclosed].
      split; [reflexivity|]; left; exact Hclosed.
    - specialize (Hstop c eq_refl); unfold notQuote in Hstop.
      rewrite Hcq in Hstop; discriminate.
    - apply nth_error_None in Hnext.
      eexists; (split; [reflexivity|]).
      apply lexes_token with (c := quote);
        [exact Hc|exact Hsp|reflexivity| |simpl; lia
        |simpl; rewrite Hlen; now rewrite (slice_S _ _ _ _ Hc)
        |simpl; lia|simpl; lia|lia|intros _; right; lia].
      split; [reflexivity|]; right.
      exists (slice content (current + 1) k); auto. }
  destruct (has operators [char]) eqn:Hop.
  { destruct (nth_error content (current + 1)) as [nextChar|] eqn:Hnext;
      [destruct (has operators [char; nextChar]) eqn:Hop2|];
      eexists; (split; [reflexivity|]).
    - apply nth_error_lt in Hnext as Hlt'.
      apply lexes_token with (c := char);
        [exact Hc|exact Hsp|reflexivity| |simpl; lia
        |exact (slice_2 _ _ _ _ Hc Hnext)|simpl; lia|simpl; lia|lia
        |discriminate].
      split; [reflexivity|]; simpl; now apply operator_pair.
    - apply lexes_token with (c := char);
        [exact Hc|exact Hsp|reflexivity| |simpl; lia
        |exact (slice_1 _ _ _ Hc)|simpl; lia|simpl; lia|lia
        |discriminate].
      split; [reflexivity|]; simpl; now apply operator_single.
    - apply lexes_token with (c := char);
        [exact Hc|exact Hsp|reflexivity| |simpl; lia
        |exact (slice_1 _ _ _ Hc)|simpl; lia|simpl; lia|lia
        |discriminate].
      split; [reflexivity|]; simpl; now apply operator_single. }
  eexists; (split; [reflexivity|]).
  apply lexes_token with (c := char);
    [exact Hc|exact Hsp|reflexivity| |simpl; lia
    |exact (slice_1 _ _ _ Hc)|simpl; lia|simpl; lia|lia|discriminate].
  split; [reflexivity|]; simpl; exists char; repeat split; auto.
Qed.

(** An invariant of the iterations, in their full description, holds of
    the state the loop ends in. *)
Lemma lexer_invariant (P : Lexer.state -> Prop) :
  P Lexer.init ->
  (forall st st', P st -> lexes content st st' -> P st') ->
  exists st,
    Lexer.loop (List.length content) content Lexer.init = Done st
    /\ P st /\ Lexer.current st = List.length content.
Proof.
  intros Hinit Hstep.
  assert (Hloop : forall fuel st,
             Lexer.current st <= List.length content ->
             List.length content - Lexer.current st <= fuel ->
             P st ->
             exists st',
               Lexer.loop fuel content st = Done st'
               /\ P st' /\ Lexer.current st' = List.length content).
  { induction fuel as [|fuel IH]; intros st Hle Hfuel HP; simpl;
      destruct (nth_error content (Lexer.current st)) as [char|] eqn:Hc.
    - apply nth_error_lt in Hc; lia.
    - apply nth_error_None in Hc; exists st; repeat split; auto; lia.
    - destruct (step_lexes st char Hc) as (st1 & Hrun & Hlex).
      rewrite Hrun; simpl.
      pose proof Hlex as ([? ?] & _).
      apply IH; try lia; eauto.
    - apply nth_error_None in Hc; exists st; repeat split; auto; lia. }
  apply Hloop; simpl; auto; lia.
Qed.

End LexerSteps.

(** ** The lexer: what the tokens are and where they stand *)

Ltac run_lexer content P :=
  destruct (lexer_invariant content P) as (st & Hrun & HP & Hend).

Lemma tokenize_of_loop (content : jsstring) (st : Lexer.state) :
  Lexer.loop (List.length content) content Lexer.init = Done st ->
  Lexer.tokenize content = Done (Lexer.tokens st).
Proof.
  intros H; unfold Lexer.tokenize, Lexer.tokenize_fuel; now rewrite H.
Qed.

(** X1. Token shapes: in the token list of any input, every token has
    [length = value.length]; a NUMBER is a non-empty run of digits; a
    KEYWORD is a member of [keywords] and an IDENTIFIER is not, both being
    an identifier start followed by identifier characters; a STRING starts
    with a quote, holds no other quote inside, and ends with one unless the
    input ended first; an OPERATOR is one of the sixteen one-character
    operators, "==" or "!="; an UNKNOWN is one code unit that no other
    rule takes. *)
Theorem tokenize_shapes (content : jsstring) :
  exists toks,
    Lexer.tokenize content = Done toks /\ Forall tokenShape toks.
Proof.
  run_lexer content (fun st => Forall tokenShape (Lexer.tokens st)).
  - constructor.
  - intros st st' Hall (_ & c & _ & [(_ & _ & -> & _)|(_ & tok & Htoks & Hrest)]);
      auto.
    rewrite Htoks; apply Forall_app; split; auto.
    constructor; [tauto|constructor].
  - exists (Lexer.tokens st); split; auto using tokenize_of_loop.
Qed.

Lemma shape_not_double (t : Token.t) (c : codeUnit) :
  tokenShape t -> In c [38; 124]%N -> Token.value t <> [c; c].
Proof.
  intros [_ Hshape] Hc E; rewrite E in Hshape.
  assert (Hclass : isDigit c = false /\ isIdentStart c = false
                   /\ (c =? quote)%N = false /\ ~ In [c; c] operatorTexts).
  { simpl in Hc; destruct Hc as [<-|[<-|[]]]; repeat split; auto;
      simpl; intros H;
      repeat (destruct H as [H|H]; [discriminate|]); destruct H. }
  destruct Hclass as (Hdig & Hid & Hq & Hop).
  destruct (Token.type t); simpl in Hshape.
  - destruct Hshape as [_ [Hstart _]]; congruence.
  - destruct Hshape as [_ [Hstart _]]; congruence.
  - destruct Hshape as [_ Hall]; simpl in Hall; rewrite Hdig in Hall.
    discriminate.
  - assert (Hhead : forall body, [c; c] = quote :: body -> False).
    { intros body H; inversion H; subst c.
      rewrite N.eqb_refl in Hq; discriminate. }
    destruct Hshape as [(body & H & _)|(body & H & _)]; eauto.
  - auto.
  - auto.
  - destruct Hshape as (d & H & _); discriminate.
Qed.

(** X2. The entries "&&" and "||" of [operators] are dead: standing on [&]
    or on [|] the lexer pushes that one code unit as an UNKNOWN token,
    whatever follows, and no token of any input has the text "&&" or
    "||". *)
Theorem tokenize_no_logical_operator :
  (forall content current line character tokens,
     Lexer.step content (Lexer.mk current line character tokens) 38%N
     = Done (Lexer.mk (current + 1) line (character + 1)
               (tokens ++ [Token.mk UNKNOWN (js "&")
                             (Position.mk line character) 1]))
     /\ Lexer.step content (Lexer.mk current line character tokens) 124%N
        = Done (Lexer.mk (current + 1) line (character + 1)
                  (tokens ++ [Token.mk UNKNOWN (js "|")
                                (Position.mk line character) 1])))
  /\ (forall content,
        exists toks,
          Lexer.tokenize content = Done toks
          /\ Forall (fun t => Token.value t <> js "&&"
                              /\ Token.value t <> js "||") toks).
Proof.
  split; [intros; split; reflexivity|].
  intros content.
  run_lexer content
    (fun st => Forall (fun t => Token.value t <> js "&&"
                                /\ Token.value t <> js "||")
                      (Lexer.tokens st)).
  - constructor.
  - intros st st' Hall (_ & c & _ & [(_ & _ & -> & _)|(_ & tok & Htoks & Hrest)]);
      auto.
    rewrite Htoks; apply Forall_app; split; auto.
    destruct Hrest as (_ & Hshape & _).
    constructor; [|constructor].
    split; apply shape_not_double; simpl; auto.
  - exists (Lexer.tokens st); split; auto using tokenize_of_loop.
Qed.

Lemma ordered_snoc (A : Type) (R : A -> A -> Prop) (l : list A) (x : A) :
  ForallOrdPairs R l -> Forall (fun u => R u x) l ->
  ForallOrdPairs R (l ++ [x]).
Proof.
  induction 1 as [|a l Ha Hl IH]; intros Hx; simpl.
  - repeat constructor.
  - inversion Hx; subst; constructor; auto.
    apply Forall_app; split; auto.
Qed.

(** X3. Tokens do not overlap and come in reading order: of any two tokens
    of the list, the earlier one lies on an earlier line than the later, or
    on the same line and ends, at column [character + length], no later
    than the later one starts. *)
Theorem tokenize_ordered (content : jsstring) :
  exists toks,
    Lexer.tokenize content = Done toks /\ ForallOrdPairs precedes toks.
Proof.
  run_lexer content
    (fun st =>
       ForallOrdPairs precedes (Lexer.tokens st)
       /\ Forall (endsBefore (Lexer.line st) (Lexer.character st))
                 (Lexer.tokens st)).
  - split; constructor.
  - intros st st' [Hord Hbefore]
           (_ & c & _ & [(_ & _ & Htoks & Hline & Hchar)
                        |(_ & tok & Htoks & Hpos & [Hlen _] & _ & _
                            & Hline & Hchar & _)]).
    + rewrite Htoks, Hline, Hchar; split; auto.
      eapply Forall_impl; [|exact Hbefore].
      unfold endsBefore; intros t Ht; destruct (c =? newline)%N; lia.
    + rewrite Htoks, Hline, Hchar; split.
      * apply ordered_snoc; auto.
        eapply Forall_impl; [|exact Hbefore].
        unfold endsBefore, precedes; intros t Ht; rewrite Hpos; simpl; lia.
      * apply Forall_app; split.
        -- eapply Forall_impl; [|exact Hbefore].
           unfold endsBefore; intros t Ht; lia.
        -- constructor; [|constructor].
           unfold endsBefore; rewrite Hpos, Hlen; simpl; lia.
  - exists (Lexer.tokens st); split; [auto using tokenize_of_loop|tauto].
Qed.

Lemma snoc_split (A : Type) (l pre post : list A) (x t : A) :
  l ++ [x] = pre ++ t :: post ->
  (post = [] /\ pre = l /\ t = x)
  \/ exists post', post = post' ++ [x] /\ l = pre ++ t :: post'.
Proof.
  intros H; destruct (exists_last (l := t :: post)) as (post' & y & E);
    [discriminate|].
  rewrite E, app_assoc in H; apply app_inj_tail in H as [-> ->].
  destruct post' as [|t' post'].
  - left; simpl in E; inversion E; subst.
    now rewrite app_nil_r.
  - right; simpl in E; inversion E; subst.
    exists post'; split; auto.
Qed.

(** X4. An unterminated string is the last token: in the token list of any
    input, a STRING token that lacks its closing quote has no token after
    it. *)
Theorem tokenize_open_string_last (content : jsstring) :
  exists toks,
    Lexer.tokenize content = Done toks
    /\ forall pre t post,
         toks = pre ++ t :: post ->
         Token.type t = STRING ->
         closedString (Token.value t) \/ post = [].
Proof.
  run_lexer content
    (fun st =>
       forall pre t post,
         Lexer.tokens st = pre ++ t :: post ->
         Token.type t = STRING ->
         closedString (Token.value t)
         \/ (post = [] /\ Lexer.current st = List.length content)).
  - intros [|x pre] t post H; discriminate.
  - intros st st' Hinv
           ([Hlt Hle] & c & _ & [(_ & _ & Htoks & _)
                                |(_ & tok & Htoks & _ & _ & _ & _ & _ & _
                                    & Hstr)]);
      intros pre t post Hsplit Hty.
    + rewrite Htoks in Hsplit.
      destruct (Hinv pre t post Hsplit Hty) as [|[_ ?]]; auto; lia.
    + rewrite Htoks in Hsplit; apply snoc_split in Hsplit.
      destruct Hsplit as [(-> & -> & ->)|(post' & -> & Hold)].
      * destruct (Hstr Hty); auto.
      * destruct (Hinv pre t post' Hold Hty) as [|[_ ?]]; auto; lia.
  - exists (Lexer.tokens st); split; [auto using tokenize_of_loop|].
    intros pre t post Hsplit Hty.
    destruct (HP pre t post Hsplit Hty) as [|[? _]]; auto.
Qed.

(** X5. No token, nothing but white space: the token list of an input is
    empty exactly when every code unit of the input is white space
    (the empty input included). *)
Theorem tokenize_empty_iff (content : jsstring) :
  exists toks,
    Lexer.tokenize content = Done toks
    /\ (toks = [] <-> forallb isSpace content = true).
Proof.
  run_lexer content
    (fun st =>
       Lexer.tokens st = []
       <-> forallb isSpace (firstn (Lexer.current st) content) = true).
  - simpl; tauto.
  - intros st st' Hinv
           ([Hlt Hle] & c & Hc & [(Hsp & Hcur & Htoks & _)
                                 |(Hsp & tok & Htoks & _ & _ & _ & Hcur & _)]).
    + rewrite Htoks, Hcur, (firstn_snoc _ _ _ _ Hc), forallb_app; simpl.
      rewrite Hsp, andb_true_r; exact Hinv.
    + rewrite Htoks; split.
      * intros H; destruct (Lexer.tokens st); discriminate.
      * intros H; exfalso.
        rewrite forallb_forall in H.
        assert (Hin : In c (firstn (Lexer.current st') content)).
        { replace (Lexer.current st')
            with (Lexer.current st + 1 + (Lexer.current st' - Lexer.current st - 1))
            by lia.
          rewrite firstn_plus_slice, (firstn_snoc _ _ _ _ Hc).
          apply in_or_app; left; apply in_or_app; right; simpl; auto. }
        rewrite (H c Hin) in Hsp; discriminate.
  - exists (Lexer.tokens st); split; [auto using tokenize_of_loop|].
    rewrite Hend, firstn_all in HP; exact HP.
Qed.

Lemma textPosition_snoc (text : jsstring) (c : codeUnit) :
  textPosition (text ++ [c]) = textStep (textPosition text) c.
Proof. unfold textPosition; now rewrite fold_left_app. Qed.

Lemma textStep_flat (v : jsstring) :
  forall p,
    ~ In newline v ->
    fold_left textStep v p
    = Position.mk (Position.line p) (Position.character p + List.length v).
Proof.
  induction v as [|c v IH]; intros p Hnl.
  - destruct p; simpl; f_equal; lia.
  - change (fold_left textStep (c :: v) p)
      with (fold_left textStep v (textStep p c)).
    rewrite IH by (simpl in Hnl; tauto); unfold textStep.
    destruct (c =? newline)%N eqn:E.
    + apply N.eqb_eq in E; subst c; simpl in Hnl; tauto.
    + simpl; f_equal; lia.
Qed.

Lemma textPosition_flat (text v : jsstring) :
  ~ In newline v ->
  textPosition (text ++ v)
  = Position.mk (Position.line (textPosition text))
                (Position.character (textPosition text) + List.length v).
Proof.
  intros Hnl; unfold textPosition; rewrite fold_left_app.
  now apply textStep_flat.
Qed.

Lemma placed_snoc (g : jsstring) (t : Token.t) :
  forall gaps toks before,
    List.length gaps = List.length toks ->
    placed before gaps toks ->
    Token.position t = textPosition (before ++ weave gaps toks g) ->
    placed before (gaps ++ [g]) (toks ++ [t]).
Proof.
  induction gaps as [|g0 gaps IH]; intros [|t0 toks] before Hlen Hplaced Hpos;
    simpl in *; try discriminate; auto.
  destruct Hplaced as [Hpos0 Hplaced]; split; auto.
  apply IH; auto.
  now rewrite <- !app_assoc.
Qed.

Lemma shape_no_newline (t : Token.t) :
  tokenShape t -> Token.type t <> STRING -> ~ In newline (Token.value t).
Proof.
  intros [_ Hshape] Hty Hin.
  assert (Hall : forall p, forallb p (Token.value t) = true ->
                           p newline = true)
    by (intros p H; rewrite forallb_forall in H; auto).
  destruct (Token.type t); simpl in Hshape; try tauto.
  - destruct Hshape as [_ Hid]; unfold identShaped in Hid.
    destruct (Token.value t); [tauto|].
    destruct Hid as [_ Hid]; apply Hall in Hid; discriminate.
  - destruct Hshape as [_ Hid]; unfold identShaped in Hid.
    destruct (Token.value t); [tauto|].
    destruct Hid as [_ Hid]; apply Hall in Hid; discriminate.
  - destruct Hshape as [_ Hdig]; apply Hall in Hdig; discriminate.
  - unfold operatorTexts in Hshape; simpl in Hshape.
    repeat (destruct Hshape as [Hshape|Hshape];
            [rewrite <- Hshape in Hin; simpl in Hin;
             repeat (destruct Hin as [Hin|Hin]; [discriminate|]);
             destruct Hin|]).
    destruct Hshape.
  - destruct Hshape as (c & Hval & Hsp & _); rewrite Hval in Hin.
    destruct Hin as [E|[]]; subst c; discriminate.
Qed.

(** X6. Token positions: when no STRING token of the input holds a newline,
    each token stands at the line and column of the text where it begins:
    its [position] is the number of newlines before it and the number of
    code units between the last of them and it.  (A newline inside a
    string is counted as a column, not as a line, whence the hypothesis.) *)
Theorem tokenize_positions (content : jsstring) (toks : list Token.t) :
  Lexer.tokenize content = Done toks ->
  Forall (fun t => Token.type t = STRING -> ~ In newline (Token.value t))
         toks ->
  exists gaps tail,
    List.length gaps = List.length toks
    /\ weave gaps toks tail = content
    /\ placed [] gaps toks.
Proof.
  intros Hrun0 Hflat.
  run_lexer content
    (fun st =>
       Forall tokenShape (Lexer.tokens st)
       /\ (Forall (fun t => Token.type t = STRING ->
                            ~ In newline (Token.value t))
                  (Lexer.tokens st) ->
           exists gaps tail,
             List.length gaps = List.length (Lexer.tokens st)
             /\ weave gaps (Lexer.tokens st) tail
                = firstn (Lexer.current st) content
             /\ placed [] gaps (Lexer.tokens st)
             /\ Position.mk (Lexer.line st) (Lexer.character st)
                = textPosition (firstn (Lexer.current st) content))).
  - split; [constructor|]; intros _; exists [], []; repeat split; auto.
  - intros st st' [Hshapes Hinv]
           (_ & c & Hc & [(Hsp & Hcur & Htoks & Hline & Hchar)
                         |(Hsp & tok & Htoks & Hpos & Hshape & Hslice & Hcur
                             & Hline & Hchar & _)]).
    + rewrite Htoks; split; auto; intros Hfl.
      destruct (Hinv Hfl) as (gaps & tail & Hlen & Hweave & Hplaced & Hcursor).
      exists gaps, (tail ++ [c]); repeat split; auto.
      * now rewrite weave_tail, Hweave, Hcur, (firstn_snoc _ _ _ _ Hc).
      * rewrite Hcur, (firstn_snoc _ _ _ _ Hc), textPosition_snoc.
        rewrite <- Hcursor, Hline, Hchar; unfold textStep; simpl.
        now destruct (c =? newline)%N.
    + rewrite Htoks; split.
      { apply Forall_app; split; auto. }
      intros Hfl; apply Forall_app in Hfl as [Hfl Hnew].
      inversion Hnew as [|? ? Htok _]; subst.
      destruct (Hinv Hfl) as (gaps & tail & Hlen & Hweave & Hplaced & Hcursor).
      assert (Hnl : ~ In newline (Token.value tok)).
      { destruct (Token.type tok) eqn:Hty;
          try (apply shape_no_newline; [assumption|congruence]).
        now apply Htok. }
      assert (Hcut : firstn (Lexer.current st') content
                     = firstn (Lexer.current st) content ++ Token.value tok)
        by now rewrite Hcur, firstn_plus_slice, Hslice.
      exists (gaps ++ [tail]), []; repeat split.
      * rewrite !length_app; simpl; lia.
      * rewrite weave_snoc by assumption.
        now rewrite app_nil_r, weave_tail, Hweave, Hcut.
      * apply placed_snoc; auto.
        simpl; now rewrite Hweave, Hpos.
      * rewrite Hcut, textPosition_flat by assumption.
        now rewrite <- Hcursor, Hline, Hchar.
  - apply tokenize_of_loop in Hrun; rewrite Hrun in Hrun0.
    inversion Hrun0; subst toks.
    destruct HP as [_ HP].
    destruct (HP Hflat) as (gaps & tail & Hlen & Hweave & Hplaced & _).
    exists gaps, tail; repeat split; auto.
    now rewrite Hend, firstn_all in Hweave.
Qed.

(** The positions in a text of two lines, with a string on the second. *)
Lemma tokenize_positions_witness :
  Lexer.tokenize text_two_lines = Done tokens_two_lines
  /\ Forall (fun t => Token.type t = STRING -> ~ In newline (Token.value t))
            tokens_two_lines
  /\ exists gaps tail,
       List.length gaps = List.length tokens_two_lines
       /\ weave gaps tokens_two_lines tail = text_two_lines
       /\ placed [] gaps tokens_two_lines.
Proof.
  assert (H : Forall (fun t => Token.type t = STRING ->
                               ~ In newline (Token.value t))
                     tokens_two_lines).
  { repeat constructor; try discriminate.
    intros _ H; simpl in H.
    repeat (destruct H as [H|H]; [discriminate|]); destruct H. }
  split; [reflexivity|]; split; [exact H|].
  exact (tokenize_positions text_two_lines tokens_two_lines eq_refl H).
Defined.

(** ** The validator: where blocks come from *)

Lemma skipParens_ge (tokens : list Token.t) (fuel : nat) :
  forall current parenCount current' parenCount',
    Validator.skipParens fuel tokens current parenCount
    = Done (current', parenCount') ->
    current <= current'.
Proof.
  induction fuel as [|fuel IH]; intros current parenCount current' parenCount';
    simpl; destruct (nth_error tokens current) as [t|];
    try (intros H; inversion H; lia);
    destruct (0 <? parenCount)%Z; try discriminate;
    try (intros H; inversion H; lia).
  intros H; apply IH in H; lia.
Qed.

Lemma scanInitializer_ge (tokens : list Token.t) (declared : list jsstring)
    (fuel : nat) :
  forall current ds current' ds',
    Validator.scanInitializer fuel tokens declared current ds
    = Done (current', ds') ->
    current <= current' /\ List.length ds' + current <= List.length ds + current'.
Proof.
  induction fuel as [|fuel IH]; intros current ds current' ds';
    simpl; destruct (nth_error tokens current) as [t|];
    try (intros H; inversion H; lia);
    destruct (negb (Validator.valueIs t ";")); try discriminate;
    try (intros H; inversion H; lia).
  intros H; apply IH in H.
  destruct (_ && _); rewrite ?length_app in H; simpl in H; lia.
Qed.

Lemma caseVar_stack (tokens : list Token.t) (st st' : Validator.state)
    (token : Token.t) :
  Validator.caseVar tokens st token = Done st' ->
  Validator.blockStack st' = Validator.blockStack st.
Proof.
  destruct st as [diagnostics declared blockStack current].
  unfold Validator.caseVar.
  destruct (Validator.missing tokens (current + 1) _);
    [intros H; inversion H; auto|].
  destruct (Validator.tokenAt tokens (current + 1)) as [ident| |]; simpl;
    try (destruct (Validator.missing _ _ _); discriminate).
  destruct (Validator.missing tokens (current + 2) _);
    [intros H; inversion H; auto|].
  destruct (Validator.scanInitializer _ _ _ _ _) as [[current' ds']| |];
    simpl; try discriminate.
  destruct (Validator.missing tokens current' _);
    [|intros H; inversion H; auto].
  destruct (Validator.tokenBefore tokens current') as [last| |]; simpl;
    try discriminate.
  intros H; inversion H; auto.
Qed.

Lemma caseMeow_stack (tokens : list Token.t) (st st' : Validator.state)
    (token : Token.t) :
  Validator.caseMeow tokens st token = Done st' ->
  Validator.blockStack st' = Validator.blockStack st.
Proof.
  destruct st as [diagnostics declared blockStack current].
  unfold Validator.caseMeow.
  destruct (Validator.missing tokens (current + 1) _);
    [intros H; inversion H; auto|].
  destruct (Validator.skipParens _ _ _ _) as [[current' parenCount]| |];
    simpl; try discriminate.
  intros H; inversion H; auto.
Qed.

(** The case of [for], [while] and [if] leaves the stack as it is or pushes
    one block: [isIf: true], the keyword, the index of an opening brace
    between the keyword and the new cursor, count 1. *)
Lemma caseIf_stack (tokens : list Token.t) (st st' : Validator.state)
    (token : Token.t) :
  Validator.caseIf tokens st token = Done st' ->
  Validator.blockStack st' = Validator.blockStack st
  \/ exists i,
       Validator.blockStack st'
       = BlockContext.mk true token i 1 :: Validator.blockStack st
       /\ Validator.current st < i < Validator.current st'
       /\ Validator.present tokens i (fun t => Validator.valueIs t "{")
          = true.
Proof.
  destruct st as [diagnostics declared blockStack current].
  unfold Validator.caseIf.
  destruct (Validator.missing tokens (current + 1) _);
    [intros H; inversion H; auto|].
  destruct (Validator.skipParens _ _ _ _) as [[current' parenCount]| |] eqn:E;
    simpl; try discriminate.
  apply skipParens_ge in E.
  destruct (0 <? parenCount)%Z; [intros H; inversion H; auto|].
  destruct (Validator.present tokens current' _) eqn:P;
    intros H; inversion H; simpl; auto.
  right; exists current'; repeat split; auto; lia.
Qed.

Lemma elseIf_stack (tokens : list Token.t) (st : Validator.state)
    (current1 : nat) (r : Validator.state + nat) :
  Validator.elseIf tokens st current1 = Done r ->
  match r with
  | inl st' => Validator.blockStack st' = Validator.blockStack st
  | inr current' => current1 <= current'
  end.
Proof.
  destruct st as [diagnostics declared blockStack current].
  unfold Validator.elseIf.
  destruct (Validator.present tokens current1 _);
    [|intros H; inversion H; auto].
  destruct (Validator.missing tokens (current1 + 1) _).
  { destruct (Validator.tokenBefore _ _) as [prev| |]; simpl;
      try discriminate.
    intros H; inversion H; auto. }
  destruct (Validator.skipParens _ _ _ _) as [[current3 parenCount]| |] eqn:E;
    simpl; try discriminate.
  apply skipParens_ge in E.
  destruct (0 <? parenCount)%Z.
  - destruct (Validator.tokenBefore _ _) as [prev| |]; simpl;
      try discriminate.
    intros H; inversion H; auto.
  - intros H; inversion H; lia.
Qed.

(** The case of [else] leaves the stack as it is or pushes one block:
    [isIf: false], the keyword, the index of an opening brace between the
    keyword and the new cursor, count 1. *)
Lemma caseElse_stack (tokens : list Token.t) (st st' : Validator.state)
    (token : Token.t) :
  Validator.caseElse tokens st token = Done st' ->
  Validator.blockStack st' = Validator.blockStack st
  \/ exists i,
       Validator.blockStack st'
       = BlockContext.mk false token i 1 :: Validator.blockStack st
       /\ Validator.current st < i < Validator.current st'
       /\ Validator.present tokens i (fun t => Validator.valueIs t "{")
          = true.
Proof.
  destruct st as [diagnostics declared blockStack current].
  unfold Validator.caseElse.
  destruct (negb _); [intros H; inversion H; auto|].
  destruct (Validator.elseIf _ _ _) as [r| |] eqn:Helse; try discriminate.
  apply elseIf_stack in Helse.
  unfold bind; destruct r as [st1|current'].
  - intros H; inversion H; subst; auto.
  - destruct (Validator.present tokens current' _) eqn:P;
      intros H; inversion H; simpl; auto.
    right; exists current'; repeat split; auto; lia.
Qed.

Lemma blockOrigin_later (tokens : list Token.t) (current current' : nat)
    (b : BlockContext.t) :
  current <= current' ->
  blockOrigin tokens current b -> blockOrigin tokens current' b.
Proof.
  unfold blockOrigin; intros Hle (H1 & H2 & H3 & H4 & H5 & H6).
  repeat split; auto; lia.
Qed.

Lemma closeBrace_origin (tokens : list Token.t) (current : nat)
    (blockStack : list BlockContext.t) :
  Forall (blockOrigin tokens current) blockStack ->
  Forall (blockOrigin tokens current) (Validator.closeBrace blockStack).
Proof.
  intros H; destruct H as [|block below Hb Hbelow]; simpl; auto.
  destruct (_ =? 0)%Z; auto.
Qed.

Lemma openBrace_origin (tokens : list Token.t) (current index : nat)
    (blockStack : list BlockContext.t) :
  Forall (blockOrigin tokens current) blockStack ->
  Forall (blockOrigin tokens current) (Validator.openBrace blockStack index).
Proof.
  intros H; destruct H as [|block below Hb Hbelow]; simpl; auto.
  destruct (negb _); auto.
Qed.

Lemma keyword_not_else (token : Token.t) :
  (Validator.valueIs token "for" || Validator.valueIs token "while"
   || Validator.valueIs token "if") = true ->
  Validator.valueIs token "else" = false.
Proof.
  unfold Validator.valueIs; intros H.
  repeat (apply orb_true_iff in H; destruct H as [H|H]);
    apply str_eqb_eq in H; rewrite H; reflexivity.
Qed.

Lemma body_origin (tokens : list Token.t) (st st' : Validator.state)
    (token : Token.t) :
  Inv tokens st ->
  nth_error tokens (Validator.current st) = Some token ->
  Validator.body tokens st token = Done st' ->
  Forall (blockOrigin tokens (Validator.current st)) (Validator.blockStack st) ->
  Forall (blockOrigin tokens (Validator.current st'))
         (Validator.blockStack st').
Proof.
  intros HInv Htok Hrun Hblocks.
  destruct (body_spec tokens st token HInv Htok) as (st1 & Hrun1 & Hlt & _).
  rewrite Hrun in Hrun1; inversion Hrun1; subst st1; clear Hrun1.
  assert (Hlater : Forall (blockOrigin tokens (Validator.current st'))
                          (Validator.blockStack st)).
  { eapply Forall_impl; [|exact Hblocks].
    intros b; apply blockOrigin_later; lia. }
  assert (Hpush : forall isIf i,
             Validator.current st < i < Validator.current st' ->
             Validator.present tokens i
               (fun t => Validator.valueIs t "{") = true ->
             Validator.typeIs token KEYWORD = true ->
             (Validator.valueIs token "for" || Validator.valueIs token "while"
              || Validator.valueIs token "if"
              || Validator.valueIs token "else") = true ->
             isIf = negb (Validator.valueIs token "else") ->
             Forall (blockOrigin tokens (Validator.current st'))
                    (BlockContext.mk isIf token i 1 :: Validator.blockStack st)).
  { intros isIf i Hi Hbrace Hkw Hval HisIf; constructor; auto.
    unfold blockOrigin; simpl; repeat split; auto; try lia.
    exists (Validator.current st); split; auto; lia. }
  pose proof (caseVar_stack tokens st st' token) as Hvar.
  pose proof (caseMeow_stack tokens st st' token) as Hmeow.
  pose proof (caseIf_stack tokens st st' token) as Hif.
  pose proof (caseElse_stack tokens st st' token) as Helse.
  destruct st as [diagnostics declared blockStack current]; simpl in *.
  unfold Validator.body in Hrun.
  destruct (Validator.valueIs token "}").
  { inversion Hrun; subst; simpl in *; now apply closeBrace_origin. }
  destruct (Validator.valueIs token "{").
  { inversion Hrun; subst; simpl in *; now apply openBrace_origin. }
  destruct (Validator.typeIs token UNKNOWN);
    [inversion Hrun; subst; auto|].
  destruct (Validator.typeIs token KEYWORD) eqn:Hkw.
  - destruct (Validator.valueIs token "var");
      [rewrite (Hvar Hrun); auto|].
    destruct (Validator.valueIs token "meow" || Validator.valueIs token "meowln");
      [rewrite (Hmeow Hrun); auto|].
    destruct (Validator.valueIs token "for" || Validator.valueIs token "while"
              || Validator.valueIs token "if") eqn:Hthree.
    { destruct (Hif Hrun) as [->|(i & -> & Hi & Hbrace)]; auto.
      apply Hpush; auto.
      now rewrite (keyword_not_else token Hthree). }
    destruct (Validator.valueIs token "else") eqn:Hel;
      [|inversion Hrun; subst; auto].
    destruct (Helse Hrun) as [->|(i & -> & Hi & Hbrace)]; auto.
  - destruct (_ && _); inversion Hrun; subst; auto.
Qed.

(** X7. Where blocks come from: in every state of the main loop, each block
    on the stack was opened by a KEYWORD token [for], [while], [if] or
    [else] of the input, has [isIf] set exactly when that keyword is not
    [else], and has for [startIndex] the index of an opening brace that
    lies after the keyword and before the cursor.  So the test
    [startIndex !== current] of the opening-brace rule never fails: an
    opening brace met by the main loop always raises the count of the top
    block. *)
Theorem blockStack_origin (tokens : list Token.t) (st : Validator.state) :
  reachable tokens st ->
  Forall (blockOrigin tokens (Validator.current st)) (Validator.blockStack st)
  /\ forall block below,
       Validator.blockStack st = block :: below ->
       Validator.openBrace (Validator.blockStack st) (Validator.current st)
       = BlockContext.mk (BlockContext.isIf block)
                         (BlockContext.startToken block)
                         (BlockContext.startIndex block)
                         (BlockContext.braceCount block + 1) :: below.
Proof.
  intros Hreach.
  assert (Horigin : Forall (blockOrigin tokens (Validator.current st))
                           (Validator.blockStack st)).
  { induction Hreach as [|st st' token Hreach IH Htok Hrun];
      [constructor|].
    eapply body_origin; eauto using reachable_Inv. }
  split; auto.
  intros block below Hstack; rewrite Hstack in *.
  inversion Horigin as [|? ? (_ & _ & _ & _ & _ & Hbefore) _]; subst.
  simpl.
  destruct (Nat.eqb_spec (BlockContext.startIndex block)
                         (Validator.current st)); [lia|reflexivity].
Qed.

(** The origin of the block that "if (a) {" leaves on the stack. *)
Lemma blockStack_origin_witness :
  reachable tokens_if_open state_if_open
  /\ Forall (blockOrigin tokens_if_open (Validator.current state_if_open))
            (Validator.blockStack state_if_open).
Proof.
  assert (H : reachable tokens_if_open state_if_open).
  { eapply reach_body; [apply reach_init| |]; reflexivity. }
  split; [exact H|].
  exact (proj1 (blockStack_origin tokens_if_open state_if_open H)).
Defined.

(** ** The validator: the parenthesis loop *)

Lemma tokenSlice_S (tokens : list Token.t) (i k : nat) (t : Token.t) :
  nth_error tokens i = Some t ->
  tokenSlice tokens i (S k) = t :: tokenSlice tokens (i + 1) k.
Proof.
  intros H; unfold tokenSlice.
  rewrite (skipn_nth_error _ _ _ _ H), Nat.add_1_r; reflexivity.
Qed.

Lemma skipParens_depth (tokens : list Token.t) (fuel : nat) :
  forall current parenCount,
    current <= List.length tokens ->
    List.length tokens - current <= fuel ->
    exists n,
      Validator.skipParens fuel tokens current parenCount
      = Done (current + n,
              depthAfter parenCount (tokenSlice tokens current n))
      /\ current + n <= List.length tokens
      /\ (forall m, m < n ->
            (0 < depthAfter parenCount (tokenSlice tokens current m))%Z)
      /\ ((depthAfter parenCount (tokenSlice tokens current n) <= 0)%Z
          \/ current + n = List.length tokens).
Proof.
  induction fuel as [|fuel IH]; intros current parenCount Hle Hfuel; simpl;
    destruct (nth_error tokens current) as [t|] eqn:Ht.
  - apply nth_error_lt in Ht; lia.
  - apply nth_error_None in Ht.
    exists 0; rewrite Nat.add_0_r; repeat split; auto; try lia;
      intros m Hm; lia.
  - destruct (Z.ltb_spec 0 parenCount) as [Hpos|Hneg].
    + apply nth_error_lt in Ht as Hlt.
      match goal with
      | |- context [Validator.skipParens _ _ _ ?pc] =>
          assert (Hpc : pc = (parenCount + parenDelta t)%Z)
      end.
      { unfold parenDelta.
        destruct (Validator.valueIs t "("), (Validator.valueIs t ")"); lia. }
      rewrite Hpc.
      destruct (IH (current + 1) (parenCount + parenDelta t)%Z)
        as (n & Hrun & Hend & Hopen & Hstop); try lia.
      exists (S n); rewrite (tokenSlice_S _ _ _ _ Ht); simpl.
      replace (current + S n) with (current + 1 + n) by lia.
      repeat split; auto.
      intros [|m] Hm; [exact Hpos|].
      rewrite (tokenSlice_S _ _ _ _ Ht); simpl; apply Hopen; lia.
    + exists 0; rewrite Nat.add_0_r; repeat split; auto; try lia;
        intros m Hm; lia.
  - apply nth_error_None in Ht.
    exists 0; rewrite Nat.add_0_r; repeat split; auto; try lia;
      intros m Hm; lia.
Qed.

(** X8. The parenthesis loop: started at [current] with a count, it moves
    over the shortest run of tokens after which the count, raised by each
    opening and lowered by each closing parenthesis, is no longer positive,
    or over all the tokens left when there is no such run; it returns the
    index after that run and the count reached there. *)
Theorem skipParens_matching (tokens : list Token.t) (current : nat)
    (parenCount : Z) :
  current <= List.length tokens ->
  exists n,
    Validator.skipParens (List.length tokens) tokens current parenCount
    = Done (current + n, depthAfter parenCount (tokenSlice tokens current n))
    /\ current + n <= List.length tokens
    /\ (forall m, m < n ->
          (0 < depthAfter parenCount (tokenSlice tokens current m))%Z)
    /\ ((depthAfter parenCount (tokenSlice tokens current n) <= 0)%Z
        \/ current + n = List.length tokens).
Proof.
  intros Hle; apply skipParens_depth; auto; lia.
Qed.

(** The loop over the condition of "if (a) {", from the token after the
    opening parenthesis. *)
Lemma skipParens_matching_witness :
  2 <= List.length tokens_if_open
  /\ exists n,
       Validator.skipParens (List.length tokens_if_open) tokens_if_open 2 1
       = Done (2 + n, depthAfter 1 (tokenSlice tokens_if_open 2 n))
       /\ 2 + n <= List.length tokens_if_open
       /\ (forall m, m < n ->
             (0 < depthAfter 1 (tokenSlice tokens_if_open 2 m))%Z)
       /\ ((depthAfter 1 (tokenSlice tokens_if_open 2 n) <= 0)%Z
           \/ 2 + n = List.length tokens_if_open).
Proof.
  assert (H : 2 <= List.length tokens_if_open) by (simpl; lia).
  split; [exact H|].
  exact (skipParens_matching tokens_if_open 2 1 H).
Defined.

(** ** The validator: declarations only *)

(** X9. A token list made of well-formed declarations only,
    [var IDENT = initializer ;] repeated, where the initializer holds no
    semicolon and each IDENTIFIER in it is a name declared before or by
    the declaration itself, gets no diagnostic. *)
Theorem declarations_get_no_diagnostic (tokens : list Token.t) :
  varDeclarations [] tokens -> Validator.validateSyntax tokens = Done [].
Proof.
  intros H.
  destruct (loop_varDeclarations tokens [] tokens H [] (List.length tokens))
    as (declared' & Hrun); auto.
  unfold Validator.validateSyntax, Validator.validateSyntax_fuel.
  simpl in Hrun; unfold Validator.init; now rewrite Hrun.
Qed.

(** The property on the tokens of "var x = 5; var y = x + y;". *)
Lemma declarations_get_no_diagnostic_witness :
  varDeclarations [] tokens_two_declarations
  /\ Validator.validateSyntax tokens_two_declarations = Done [].
Proof.
  assert (H : varDeclarations [] tokens_two_declarations).
  { apply (decls_cons [] _ _ _
             (Token.mk OPERATOR (js ";") (Position.mk 0 9) 1)
             [Token.mk NUMBER (js "5") (Position.mk 0 8) 1]);
      try reflexivity.
    - repeat constructor; discriminate.
    - apply (decls_cons _ _ _ _
               (Token.mk OPERATOR (js ";") (Position.mk 0 24) 1)
               [Token.mk IDENTIFIER (js "x") (Position.mk 0 19) 1;
                Token.mk OPERATOR (js "+") (Position.mk 0 21) 1;
                Token.mk IDENTIFIER (js "y") (Position.mk 0 23) 1] []);
        try reflexivity.
      + repeat constructor; discriminate.
      + apply decls_nil. }
  split; [exact H|].
  exact (declarations_get_no_diagnostic tokens_two_declarations H).
Defined.

(** ** The validator: no more diagnostics than tokens *)

Lemma skipParens_le (tokens : list Token.t) (fuel : nat) :
  forall current parenCount current' parenCount',
    Validator.skipParens fuel tokens current parenCount
    = Done (current', parenCount') ->
    current <= List.length tokens ->
    current' <= List.length tokens.
Proof.
  induction fuel as [|fuel IH]; intros current parenCount current' parenCount';
    simpl; destruct (nth_error tokens current) as [t|] eqn:Ht;
    try (intros H; inversion H; lia);
    destruct (0 <? parenCount)%Z; try discriminate;
    try (intros H; inversion H; lia).
  intros H _; apply IH in H; auto.
  apply nth_error_lt in Ht; lia.
Qed.

Lemma scanInitializer_le (tokens : list Token.t) (declared : list jsstring)
    (fuel : nat) :
  forall current ds current' ds',
    Validator.scanInitializer fuel tokens declared current ds
    = Done (current', ds') ->
    current <= List.length tokens ->
    current' <= List.length tokens.
Proof.
  induction fuel as [|fuel IH]; intros current ds current' ds';
    simpl; destruct (nth_error tokens current) as [t|] eqn:Ht;
    try (intros H; inversion H; lia);
    destruct (negb (Validator.valueIs t ";")); try discriminate;
    try (intros H; inversion H; lia).
  intros H _; apply IH in H; auto.
  apply nth_error_lt in Ht; lia.
Qed.

Section ValidatorWeight.

Variable tokens : list Token.t.

Ltac weigh :=
  intros; unfold lighter, weight, passed;
  repeat match goal with
         | H : Done _ = Done _ |- _ => inversion H; subst; clear H
         end;
  simpl; rewrite ?length_app; simpl; lia.

Ltac bound M :=
  let t := fresh "t" in
  let H := fresh "Hat" in
  (apply missing_false in M || apply present_true in M);
  destruct M as (t & H & _); apply nth_error_lt in H.

Lemma caseVar_weight (st st' : Validator.state) (token : Token.t) :
  nth_error tokens (Validator.current st) = Some token ->
  Validator.caseVar tokens st token = Done st' ->
  lighter tokens st st'.
Proof.
  destruct st as [diagnostics declared blockStack current].
  intros Htok; simpl in Htok; apply nth_error_lt in Htok; unfold Validator.caseVar.
  destruct (Validator.missing tokens (current + 1) _) eqn:M1; [weigh|].
  bound M1.
  destruct (Validator.tokenAt tokens (current + 1)) as [ident| |]; simpl;
    try (destruct (Validator.missing _ _ _); discriminate).
  destruct (Validator.missing tokens (current + 2) _) eqn:M2; [weigh|].
  bound M2.
  destruct (Validator.scanInitializer _ _ _ _ _) as [[current' ds']| |] eqn:E;
    simpl; try discriminate.
  apply scanInitializer_ge in E as Hge; apply scanInitializer_le in E;
    [|lia].
  destruct (Validator.missing tokens current' _) eqn:M3.
  - destruct (Validator.tokenBefore tokens current') as [last| |]; simpl;
      try discriminate.
    weigh.
  - bound M3; weigh.
Qed.

Lemma caseMeow_weight (st st' : Validator.state) (token : Token.t) :
  nth_error tokens (Validator.current st) = Some token ->
  Validator.caseMeow tokens st token = Done st' ->
  lighter tokens st st'.
Proof.
  destruct st as [diagnostics declared blockStack current].
  intros Htok; simpl in Htok; apply nth_error_lt in Htok; unfold Validator.caseMeow.
  destruct (Validator.missing tokens (current + 1) _) eqn:M1; [weigh|].
  bound M1.
  destruct (Validator.skipParens _ _ _ _) as [[current' parenCount]| |] eqn:E;
    simpl; try discriminate.
  apply skipParens_ge in E as Hge; apply skipParens_le in E; [|lia].
  destruct (0 <? parenCount)%Z; weigh.
Qed.

Lemma caseIf_weight (st st' : Validator.state) (token : Token.t) :
  nth_error tokens (Validator.current st) = Some token ->
  Validator.caseIf tokens st token = Done st' ->
  lighter tokens st st'.
Proof.
  destruct st as [diagnostics declared blockStack current].
  intros Htok; simpl in Htok; apply nth_error_lt in Htok; unfold Validator.caseIf.
  destruct (Validator.missing tokens (current + 1) _) eqn:M1; [weigh|].
  bound M1.
  destruct (Validator.skipParens _ _ _ _) as [[current' parenCount]| |] eqn:E;
    simpl; try discriminate.
  apply skipParens_ge in E as Hge; apply skipParens_le in E; [|lia].
  destruct (0 <? parenCount)%Z; [weigh|].
  destruct (Validator.present tokens current' _) eqn:P; [bound P|]; weigh.
Qed.

Lemma elseIf_weight (st : Validator.state) (current1 : nat)
    (r : Validator.state + nat) :
  Validator.current st < current1 <= List.length tokens ->
  Validator.elseIf tokens st current1 = Done r ->
  match r with
  | inl st' => lighter tokens st st'
  | inr current' => current1 <= current' <= List.length tokens
  end.
Proof.
  destruct st as [diagnostics declared blockStack current].
  intros Hcur; simpl in Hcur; unfold Validator.elseIf.
  destruct (Validator.present tokens current1 _) eqn:P1;
    [|intros H; inversion H; lia].
  bound P1.
  destruct (Validator.missing tokens (current1 + 1) _) eqn:M2.
  { destruct (Validator.tokenBefore _ _) as [prev| |]; simpl;
      try discriminate.
    intros H; inversion H; weigh. }
  bound M2.
  destruct (Validator.skipParens _ _ _ _) as [[current3 parenCount]| |] eqn:E;
    simpl; try discriminate.
  apply skipParens_ge in E as Hge; apply skipParens_le in E; [|lia].
  destruct (0 <? parenCount)%Z.
  - destruct (Validator.tokenBefore _ _) as [prev| |]; simpl;
      try discriminate.
    intros H; inversion H; weigh.
  - intros H; inversion H; lia.
Qed.

Lemma caseElse_weight (st st' : Validator.state) (token : Token.t) :
  nth_error tokens (Validator.current st) = Some token ->
  Validator.caseElse tokens st token = Done st' ->
  lighter tokens st st'.
Proof.
  destruct st as [diagnostics declared blockStack current].
  intros Htok; simpl in Htok; apply nth_error_lt in Htok; unfold Validator.caseElse.
  destruct (negb _); [weigh|].
  destruct (Validator.elseIf _ _ _) as [r| |] eqn:E; try discriminate.
  apply elseIf_weight in E; [|simpl; lia].
  unfold bind; destruct r as [st1|current'].
  - intros H; inversion H; subst; auto.
  - destruct (Validator.present tokens current' _) eqn:P; [bound P|]; weigh.
Qed.

Lemma closeBrace_length (blockStack : list BlockContext.t) :
  List.length (Validator.closeBrace blockStack) <= List.length blockStack.
Proof.
  destruct blockStack as [|block below]; simpl; auto.
  destruct (_ =? 0)%Z; simpl; lia.
Qed.

Lemma openBrace_length (blockStack : list BlockContext.t) (current : nat) :
  List.length (Validator.openBrace blockStack current)
  = List.length blockStack.
Proof.
  destruct blockStack as [|block below]; simpl; auto.
  destruct (negb _); reflexivity.
Qed.

Lemma body_weight (st st' : Validator.state) (token : Token.t) :
  nth_error tokens (Validator.current st) = Some token ->
  Validator.body tokens st token = Done st' ->
  lighter tokens st st'.
Proof.
  intros Htok.
  pose proof (caseVar_weight st st' token Htok) as Hvar.
  pose proof (caseMeow_weight st st' token Htok) as Hmeow.
  pose proof (caseIf_weight st st' token Htok) as Hif.
  pose proof (caseElse_weight st st' token Htok) as Helse.
  destruct st as [diagnostics declared blockStack current]; simpl in Htok.
  apply nth_error_lt in Htok; unfold Validator.body.
  pose proof (closeBrace_length blockStack) as Hclose.
  pose proof (openBrace_length blockStack current) as Hopen.
  destruct (Validator.valueIs token "}");
    [intros H; inversion H; unfold lighter, weight, passed; simpl; lia|].
  destruct (Validator.valueIs token "{");
    [intros H; inversion H; unfold lighter, weight, passed; simpl; lia|].
  destruct (Validator.typeIs token UNKNOWN); [weigh|].
  destruct (Validator.typeIs token KEYWORD).
  - destruct (Validator.valueIs token "var"); auto.
    destruct (_ || _); auto.
    destruct (_ || _); auto.
    destruct (Validator.valueIs token "else"); auto.
    weigh.
  - destruct (_ && _); weigh.
Qed.

Lemma loop_weight (fuel : nat) :
  forall st st',
    Validator.loop fuel tokens st = Done st' -> lighter tokens st st'.
Proof.
  induction fuel as [|fuel IH]; intros st st'; simpl;
    destruct (nth_error tokens (Validator.current st)) as [token|] eqn:Htok;
    try discriminate;
    try (intros H; inversion H; subst; unfold lighter; lia).
  destruct (Validator.body tokens st token) as [st1| |] eqn:Hrun; simpl;
    try discriminate.
  intros H; apply IH in H; apply body_weight in Hrun; auto.
  unfold lighter in *; lia.
Qed.

Lemma reportUnclosed_length (blockStack : list BlockContext.t) :
  forall diagnostics,
    List.length (Validator.reportUnclosed diagnostics blockStack)
    <= List.length diagnostics + List.length blockStack.
Proof.
  unfold Validator.reportUnclosed; rewrite <- (length_rev blockStack).
  induction (rev blockStack) as [|block below IH]; intros diagnostics; simpl.
  - lia.
  - match goal with
    | |- context [fold_left _ below ?ds] => specialize (IH ds)
    end.
    destruct (0 <? _)%Z; rewrite ?length_app in IH; simpl in IH; lia.
Qed.

End ValidatorWeight.

(** X10. No more diagnostics than tokens: for every token list,
    [validateSyntax] returns at most [tokens.length] diagnostics (each
    iteration of the main loop adds no more diagnostics and open blocks
    than it passes tokens, and the end-of-pass report adds at most one
    diagnostic for each open block). *)
Theorem validateSyntax_bounded (tokens : list Token.t) :
  exists ds,
    Validator.validateSyntax tokens = Done ds
    /\ List.length ds <= List.length tokens.
Proof.
  destruct (validator_loop_spec tokens (List.length tokens) Validator.init)
    as (st & Hrun & _); simpl; try lia.
  { split; constructor. }
  unfold Validator.validateSyntax, Validator.validateSyntax_fuel.
  rewrite Hrun; simpl; eexists; split; [reflexivity|].
  apply loop_weight in Hrun.
  pose proof (reportUnclosed_length (Validator.blockStack st)
                                    (Validator.diagnostics st)) as Hreport.
  unfold lighter, weight, passed in Hrun; simpl in Hrun; lia.
Qed.

(** ** The request handler *)

(** X11. The handler never faults.  It answers [null] when the store has no
    text for the uri, and also when it has the empty text; for any other
    text it answers a report of kind "full" whose items are the result of
    [validateSyntax] on the tokens of the text, each item built by
    [createError] for one of these tokens. *)
Theorem diagnostic_report (documents : jsstring -> option jsstring)
    (uri : jsstring) :
  match documents uri with
  | None => diagnostic documents uri = Done None
  | Some [] => diagnostic documents uri = Done None
  | Some content =>
      exists tokens ds,
        Lexer.tokenize content = Done tokens
        /\ Validator.validateSyntax tokens = Done ds
        /\ diagnostic documents uri
           = Done (Some (FullDocumentDiagnosticReport.mk (js "full") ds))
        /\ Forall (anchored tokens) ds
  end.
Proof.
  unfold diagnostic; destruct (documents uri) as [[|c content]|]; auto.
  destruct (loop_invariant (c :: content) (fun _ => True)
              (fun _ _ _ _ => I) (List.length (c :: content)) Lexer.init)
    as (st & Hrun & _ & _); [simpl; lia|simpl; lia|exact I|].
  apply tokenize_of_loop in Hrun.
  destruct (validateSyntax_spec (Lexer.tokens st)) as (ds & Hds & Hanch).
  exists (Lexer.tokens st), ds; rewrite Hrun; simpl; rewrite Hds; auto.
Qed.

(** ** The validator: what an iteration never undoes *)

Lemma scanInitializer_appends (tokens : list Token.t)
    (declared : list jsstring) (fuel : nat) :
  forall current ds current' ds',
    Validator.scanInitializer fuel tokens declared current ds
    = Done (current', ds') ->
    exists added, ds' = ds ++ added.
Proof.
  induction fuel as [|fuel IH]; intros current ds current' ds';
    simpl; destruct (nth_error tokens current) as [t|];
    try (intros H; inversion H; exists []; now rewrite app_nil_r);
    destruct (negb (Validator.valueIs t ";")); try discriminate;
    try (intros H; inversion H; exists []; now rewrite app_nil_r).
  intros H; apply IH in H; destruct H as (added & ->).
  destruct (_ && _); eauto.
  rewrite <- app_assoc; eauto.
Qed.

Lemma has_add (set : list jsstring) (x y : jsstring) :
  has set x = true -> has (add set y) x = true.
Proof.
  unfold add; destruct (has set y); auto.
  unfold has; rewrite existsb_app; intros ->; reflexivity.
Qed.

Lemma extends_refl (st : Validator.state) : extends st st.
Proof. split; auto; exists []; now rewrite app_nil_r. Qed.

Lemma extends_trans (a b c : Validator.state) :
  extends a b -> extends b c -> extends a c.
Proof.
  intros [(x & Hx) Hab] [(y & Hy) Hbc]; split; auto.
  exists (x ++ y); now rewrite Hy, Hx, app_assoc.
Qed.

Ltac extend :=
  intros;
  repeat match goal with
         | H : Done _ = Done _ |- _ => inversion H; subst; clear H
         end;
  split; simpl; auto using has_add;
  try (eexists; reflexivity);
  try (exists []; now rewrite app_nil_r).

Lemma body_extends (tokens : list Token.t) (st st' : Validator.state)
    (token : Token.t) :
  Validator.body tokens st token = Done st' -> extends st st'.
Proof.
  destruct st as [diagnostics declared blockStack current].
  unfold Validator.body.
  destruct (Validator.valueIs token "}"); [extend|].
  destruct (Validator.valueIs token "{"); [extend|].
  destruct (Validator.typeIs token UNKNOWN); [extend|].
  destruct (Validator.typeIs token KEYWORD); [|destruct (_ && _); extend].
  destruct (Validator.valueIs token "var").
  { unfold Validator.caseVar.
    destruct (Validator.missing tokens (current + 1) _); [extend|].
    destruct (Validator.tokenAt tokens (current + 1)) as [ident| |]; simpl;
      try (destruct (Validator.missing _ _ _); discriminate).
    destruct (Validator.missing tokens (current + 2) _); [extend|].
    destruct (Validator.scanInitializer _ _ _ _ _) as [[current' ds']| |] eqn:E;
      simpl; try discriminate.
    apply scanInitializer_appends in E as (added & ->).
    destruct (Validator.missing tokens current' _); [|extend].
    destruct (Validator.tokenBefore tokens current') as [last| |]; simpl;
      try discriminate.
    extend; rewrite <- app_assoc; eexists; reflexivity. }
  destruct (_ || _).
  { unfold Validator.caseMeow.
    destruct (Validator.missing tokens (current + 1) _); [extend|].
    destruct (Validator.skipParens _ _ _ _) as [[current' parenCount]| |];
      simpl; try discriminate.
    destruct (0 <? parenCount)%Z; extend. }
  destruct (_ || _).
  { unfold Validator.caseIf.
    destruct (Validator.missing tokens (current + 1) _); [extend|].
    destruct (Validator.skipParens _ _ _ _) as [[current' parenCount]| |];
      simpl; try discriminate.
    destruct (0 <? parenCount)%Z; [extend|].
    destruct (Validator.present tokens current' _); extend. }
  destruct (Validator.valueIs token "else"); [|extend].
  unfold Validator.caseElse, Validator.elseIf.
  destruct (negb _); [extend|].
  destruct (Validator.present tokens (current + 1) _).
  - destruct (Validator.missing tokens (current + 1 + 1) _).
    + destruct (Validator.tokenBefore _ _) as [prev| |]; simpl;
        try discriminate.
      extend.
    + destruct (Validator.skipParens _ _ _ _) as [[current3 parenCount]| |];
        simpl; try discriminate.
      destruct (0 <? parenCount)%Z.
      * destruct (Validator.tokenBefore _ _) as [prev| |]; simpl;
          try discriminate.
        extend.
      * simpl; destruct (Validator.present tokens current3 _); extend.
  - simpl; destruct (Validator.present tokens (current + 1) _); extend.
Qed.

(** X12. Nothing is taken back: from any state on, the main loop only adds
    diagnostics at the end of the list and names to [declaredVariables].
    A diagnostic once emitted stays, in its place, and a name once
    declared stays declared to the end of the pass, whatever blocks open
    and close in between: the set is not scoped. *)
Theorem loop_extends (tokens : list Token.t) (fuel : nat)
    (st st' : Validator.state) :
  Validator.loop fuel tokens st = Done st' -> extends st st'.
Proof.
  revert st; induction fuel as [|fuel IH]; intros st; simpl;
    destruct (nth_error tokens (Validator.current st)) as [token|];
    try discriminate;
    try (intros H; inversion H; subst; apply extends_refl).
  destruct (Validator.body tokens st token) as [st1| |] eqn:Hrun; simpl;
    try discriminate.
  intros H; eapply extends_trans; eauto using body_extends.
Qed.

(** The pass over "var x = 5; var y = x + y;" from its initial state. *)
Lemma loop_extends_witness :
  Validator.loop 12 tokens_two_declarations Validator.init
  = Done (Validator.mk [] [js "x"; js "y"] [] 12)
  /\ extends Validator.init (Validator.mk [] [js "x"; js "y"] [] 12).
Proof.
  split; [reflexivity|].
  exact (loop_extends tokens_two_declarations 12 Validator.init
           (Validator.mk [] [js "x"; js "y"] [] 12) eq_refl).
Defined.

(** ** Completion *)

Lemma split_nonempty (content : jsstring) : split content <> [].
Proof.
  destruct content as [|c rest]; simpl; [discriminate|].
  destruct (c =? newline)%N; [discriminate|].
  destruct (split rest); discriminate.
Qed.

Lemma split_length (content : jsstring) :
  List.length (split content) = S (newlines content).
Proof.
  unfold newlines; induction content as [|c rest IH]; simpl; auto.
  destruct (c =? newline)%N; simpl; [now rewrite IH|].
  pose proof (split_nonempty rest) as Hne.
  destruct (split rest); [congruence|exact IH].
Qed.

(** X13. What [completion] answers: [null] when the store has no text for
    the uri or has the empty text; a fault, raised by [slice] on
    [undefined], when the line of the position is beyond the last line of
    the text (the lines being one more than its newlines); a list with
    [isIncomplete: true] in every other case, whatever the column. *)
Theorem completion_outcome (documents : jsstring -> option jsstring)
    (uri : jsstring) (position : Position.t) :
  match documents uri with
  | None => completion documents uri position = Done None
  | Some [] => completion documents uri position = Done None
  | Some content =>
      if Position.line position <=? newlines content
      then exists items,
             completion documents uri position
             = Done (Some (CompletionList.mk true items))
      else completion documents uri position = TypeError
  end.
Proof.
  unfold completion; destruct (documents uri) as [[|c content]|]; auto.
  pose proof (split_length (c :: content)) as Hlen.
  destruct (Nat.leb_spec (Position.line position) (newlines (c :: content)))
    as [Hin|Hout].
  - destruct (nth_error (split (c :: content)) (Position.line position))
      as [currentLine|] eqn:E; eauto.
    apply nth_error_None in E; lia.
  - destruct (nth_error (split (c :: content)) (Position.line position))
      as [currentLine|] eqn:E; auto.
    apply nth_error_lt in E; lia.
Qed.

Lemma afterFirst_None (p : codeUnit -> bool) (s : jsstring) :
  forallb (fun c => negb (p c)) s = true -> afterFirst p s = None.
Proof.
  induction s as [|c s IH]; simpl; auto.
  intros H; apply andb_true_iff in H as [Hc Hs].
  apply negb_true_iff in Hc; rewrite Hc; auto.
Qed.

Lemma afterLast_None (p : codeUnit -> bool) (s : jsstring) :
  afterLast p s = None -> forallb (fun c => negb (p c)) s = true.
Proof.
  induction s as [|c s IH]; simpl; auto.
  destruct (afterLast p s); [discriminate|].
  destruct (p c); [discriminate|]; auto.
Qed.

Lemma afterLast_Some (p : codeUnit -> bool) (s rest : jsstring) :
  afterLast p s = Some rest ->
  exists before c,
    s = (before ++ [c]) ++ rest
    /\ p c = true
    /\ forallb (fun c => negb (p c)) rest = true.
Proof.
  revert rest; induction s as [|c s IH]; intros rest; simpl;
    [discriminate|].
  destruct (afterLast p s) as [r|] eqn:E.
  - intros H; inversion H; subst r.
    destruct (IH rest eq_refl) as (before & x & -> & Hx & Hrest).
    exists (c :: before), x; auto.
  - destruct (p c) eqn:Hc; [|discriminate].
    intros H; inversion H; subst s.
    exists [], c; repeat split; auto using afterLast_None.
Qed.

Lemma word_characters (s : jsstring) :
  forallb (fun c => negb (isNonWord c)) s = true ->
  forallb isIdentPart s = true.
Proof.
  induction s as [|c s IH]; simpl; auto.
  unfold isNonWord at 1; rewrite negb_involutive.
  intros H; apply andb_true_iff in H as [-> Hs]; auto.
Qed.

(** X14. What [completion] offers: where the text of the line in front of
    the cursor holds no line terminator, it ends with a run [pref] of word
    characters (letters, digits, underscore) that is maximal, the text in
    front of the run being empty or ending with a non-word character, and
    the list offered holds the members of [words] that start with [pref],
    in the order of [words], and nothing else. *)
Theorem completion_offers (documents : jsstring -> option jsstring)
    (uri : jsstring) (position : Position.t) (c : codeUnit)
    (content text : jsstring) :
  documents uri = Some (c :: content) ->
  nth_error (split (c :: content)) (Position.line position) = Some text ->
  noLineTerminator (firstn (Position.character position) text) ->
  exists before pref,
    firstn (Position.character position) text = before ++ pref
    /\ forallb isIdentPart pref = true
    /\ (before = [] \/ exists b x, before = b ++ [x] /\ isIdentPart x = false)
    /\ completion documents uri position
       = Done (Some (CompletionList.mk true
                       (map CompletionItem.mk
                            (filter (fun word => startsWith word pref)
                                    words)))).
Proof.
  intros Hdoc Hline Hflat; unfold completion; rewrite Hdoc, Hline.
  set (s := firstn (Position.character position) text) in *.
  unfold currentPref; rewrite (afterFirst_None _ _ Hflat).
  destruct (afterLast isNonWord s) as [rest|] eqn:E.
  - destruct (afterLast_Some _ _ _ E) as (b & x & Hs & Hx & Hrest).
    exists (b ++ [x]), rest; repeat split; auto.
    + now apply word_characters.
    + right; exists b, x; split; auto.
      unfold isNonWord in Hx; now apply negb_true_iff in Hx.
  - exists [], s; repeat split; auto.
    apply afterLast_None in E; now apply word_characters.
Qed.

(** The offer for "var x = me" with the cursor at its end. *)
Lemma completion_offers_witness :
  documents_typing [] = Some (js "var x = me")
  /\ nth_error (split (js "var x = me")) (Position.line position_typing)
     = Some (js "var x = me")
  /\ noLineTerminator
       (firstn (Position.character position_typing) (js "var x = me"))
  /\ exists before pref,
       firstn (Position.character position_typing) (js "var x = me")
       = before ++ pref
       /\ forallb isIdentPart pref = true
       /\ (before = []
           \/ exists b x, before = b ++ [x] /\ isIdentPart x = false)
       /\ completion documents_typing [] position_typing
          = Done (Some (CompletionList.mk true
                          (map CompletionItem.mk
                               (filter (fun word => startsWith word pref)
                                       words)))).
Proof.
  split; [reflexivity|]; split; [reflexivity|]; split; [reflexivity|].
  apply (completion_offers documents_typing [] position_typing
           118%N (js "ar x = me") (js "var x = me"));
    reflexivity.
Defined.

(** ** The server: framing of the messages *)

Lemma startsWith_app (p s : jsstring) : startsWith (p ++ s) p = true.
Proof.
  induction p as [|c p IH]; simpl; auto.
  now rewrite N.eqb_refl, IH.
Qed.

Lemma span_front (p : codeUnit -> bool) (front back : jsstring) :
  forallb p front = true ->
  match back with
  | c :: _ => p c = false
  | [] => True
  end ->
  span p (front ++ back) = (front, back).
Proof.
  intros Hfront Hback; induction front as [|c front IH]; simpl in *.
  - destruct back as [|c back]; simpl; auto; now rewrite Hback.
  - apply andb_true_iff in Hfront as [-> Hfront]; now rewrite IH.
Qed.

Lemma uint_digits (d : Decimal.uint) :
  forallb isDigit (js (NilEmpty.string_of_uint d)) = true.
Proof. induction d; simpl; auto. Qed.

Lemma str_of_nat_digits (n : nat) :
  forallb isDigit (str_of_nat n) = true /\ str_of_nat n <> [].
Proof.
  unfold str_of_nat; split; [apply uint_digits|].
  pose proof (DecimalFacts.unorm_nonnil (Nat.to_uint n)) as Hnil.
  rewrite <- DecimalNat.Unsigned.to_of, DecimalNat.Unsigned.of_to in Hnil.
  destruct (Nat.to_uint n); [congruence|..]; discriminate.
Qed.

Lemma parseInt_uint (d : Decimal.uint) :
  forall acc,
    fold_left (fun n c => 10 * n + (N.to_nat c - 48))
              (js (NilEmpty.string_of_uint d)) acc
    = Nat.of_uint_acc d acc.
Proof.
  induction d; intros acc; simpl js; simpl fold_left; auto;
    rewrite IHd; simpl Nat.of_uint_acc; f_equal;
    rewrite Nat.tail_mul_spec; lia.
Qed.

Lemma parseInt_str_of_nat (n : nat) : parseInt (str_of_nat n) = n.
Proof.
  unfold parseInt, str_of_nat; rewrite parseInt_uint.
  apply DecimalNat.Unsigned.of_to.
Qed.

Lemma digit_not_CR (s : jsstring) :
  forallb isDigit s = true ->
  forallb (fun c => negb (c =? 13)%N) s = true.
Proof.
  induction s as [|c s IH]; simpl; auto.
  intros H; apply andb_true_iff in H as [Hc Hs]; rewrite IH by assumption.
  unfold isDigit in Hc; apply andb_true_iff in Hc as [Hlo _].
  apply N.leb_le in Hlo.
  destruct (N.eqb_spec c 13); [lia|reflexivity].
Qed.

Lemma headerAt_header (digits s : jsstring) :
  forallb isDigit digits = true -> digits <> [] ->
  headerAt (js "Content-Length: " ++ digits ++ CRLF ++ s) = Some digits.
Proof.
  intros Hdigits Hne; unfold headerAt.
  rewrite startsWith_app.
  change (skipn 16 (js "Content-Length: " ++ digits ++ CRLF ++ s))
    with (digits ++ CRLF ++ s).
  rewrite span_front by (auto; reflexivity).
  destruct digits; [congruence|].
  now rewrite startsWith_app.
Qed.

Lemma lengthMatch_at (buffer digits : jsstring) :
  headerAt buffer = Some digits -> lengthMatch buffer = Some digits.
Proof.
  intros H; destruct buffer as [|c rest]; [discriminate|].
  change (lengthMatch (c :: rest))
    with (match headerAt (c :: rest) with
          | Some d => Some d
          | None => lengthMatch rest
          end).
  now rewrite H.
Qed.

Lemma indexOf_blank_line (pre s : jsstring) :
  forallb (fun c => negb (c =? 13)%N) pre = true ->
  indexOf (CRLF ++ CRLF) (pre ++ (CRLF ++ CRLF) ++ s)
  = Some (List.length pre).
Proof.
  induction pre as [|c pre IH]; intros H.
  - reflexivity.
  - simpl in H; apply andb_true_iff in H as [Hc Hpre].
    apply negb_true_iff in Hc.
    change (indexOf (CRLF ++ CRLF) ((c :: pre) ++ (CRLF ++ CRLF) ++ s))
      with (if (c =? 13)%N && startsWith (pre ++ (CRLF ++ CRLF) ++ s)
                                         (10%N :: CRLF)
            then Some 0
            else option_map S
                   (indexOf (CRLF ++ CRLF) (pre ++ (CRLF ++ CRLF) ++ s))).
    now rewrite Hc, IH.
Qed.


Lemma header_line_no_CR (n : nat) :
  forallb (fun c => negb (c =? 13)%N) (js "Content-Length: " ++ str_of_nat n)
  = true.
Proof.
  rewrite forallb_app; apply andb_true_iff; split; [reflexivity|].
  apply digit_not_CR, str_of_nat_digits.
Qed.

Lemma header_length (n : nat) :
  List.length (header n) = List.length (str_of_nat n) + 20.
Proof.
  unfold header; rewrite !length_app; simpl; lia.
Qed.

(** The reader on a buffer that starts with a header: it waits when fewer
    code units follow than the header announces, and takes that many
    otherwise. *)
Lemma nextMessage_header (n : nat) (tail : jsstring) :
  nextMessage (header n ++ tail)
  = if List.length tail <? n then None
    else Some (firstn n tail, skipn n tail).
Proof.
  destruct (str_of_nat_digits n) as [Hdigits Hne].
  unfold nextMessage.
  assert (Hmatch : lengthMatch (header n ++ tail) = Some (str_of_nat n)).
  { apply lengthMatch_at; unfold header.
    rewrite <- !app_assoc; now apply headerAt_header. }
  assert (Hindex : indexOf (CRLF ++ CRLF) (header n ++ tail)
                   = Some (List.length (str_of_nat n) + 16)).
  { unfold header.
    replace ((js "Content-Length: " ++ str_of_nat n ++ CRLF ++ CRLF) ++ tail)
      with ((js "Content-Length: " ++ str_of_nat n) ++ (CRLF ++ CRLF) ++ tail)
      by (now rewrite <- !app_assoc).
    rewrite indexOf_blank_line by apply header_line_no_CR.
    rewrite length_app; simpl; f_equal; lia. }
  rewrite Hmatch, Hindex, parseInt_str_of_nat.
  replace (List.length (str_of_nat n) + 16 + 4)
    with (List.length (header n)) by (rewrite header_length; lia).
  rewrite length_app.
  destruct (Nat.ltb_spec (List.length tail) n) as [Hshort|Hlong].
  - destruct (Nat.ltb_spec (List.length (header n) + List.length tail)
                           (List.length (header n) + n)); [auto|lia].
  - destruct (Nat.ltb_spec (List.length (header n) + List.length tail)
                           (List.length (header n) + n)); [lia|].
    rewrite !skipn_app, skipn_all, (skipn_all2 (header n)) by lia.
    rewrite Nat.sub_diag.
    replace (List.length (header n) + n - List.length (header n)) with n
      by lia.
    reflexivity.
Qed.



Lemma byteLength_ascii (message : jsstring) :
  forallb (fun c => (c <? 128)%N) message = true ->
  byteLength message = List.length message.
Proof.
  induction message as [|c rest IH]; simpl; auto.
  intros H; apply andb_true_iff in H as [-> Hrest]; now rewrite IH.
Qed.

Lemma byteLength_ge (message : jsstring) :
  List.length message <= byteLength message.
Proof.
  assert (H : forall n s, List.length s <= n ->
                          List.length s <= byteLength s).
  { induction n as [|n IH]; intros [|c rest] Hn; simpl in *; try lia.
    pose proof (IH rest ltac:(lia)) as Hrest.
    destruct (c <? 128)%N; [lia|].
    destruct (c <? 2048)%N; [lia|].
    destruct (isHighSurrogate c); [|lia].
    destruct rest as [|d rest']; [simpl; lia|].
    destruct (isLowSurrogate d); [|lia].
    simpl in Hn; pose proof (IH rest' ltac:(lia)); simpl; lia. }
  eauto.
Qed.

Lemma byteLength_gt (message : jsstring) :
  existsb (fun c => negb (c <? 128)%N) message = true ->
  List.length message < byteLength message.
Proof.
  induction message as [|c rest IH]; simpl; [discriminate|].
  pose proof (byteLength_ge rest) as Hrest.
  destruct (c <? 128)%N; simpl; [intros H; apply IH in H; lia|].
  intros _.
  destruct (c <? 2048)%N; [lia|].
  destruct (isHighSurrogate c); [|lia].
  destruct rest as [|d rest']; [simpl; lia|].
  destruct (isLowSurrogate d); [|lia].
  pose proof (byteLength_ge rest'); simpl; lia.
Qed.

(** X16. What [respond] writes and what the reader reads: a message of
    code units below 0x80, framed by [respond], is read back as it was,
    and what follows it is left in the buffer; a message that holds a code
    unit from 0x80 on, framed by [respond] and alone in the buffer, is not
    read at all, the header counting its bytes and the reader its code
    units. *)
Theorem respond_read_back :
  (forall message rest : jsstring,
     forallb (fun c => (c <? 128)%N) message = true ->
     nextMessage (respond message ++ rest) = Some (message, rest))
  /\ (forall message : jsstring,
        existsb (fun c => negb (c <? 128)%N) message = true ->
        nextMessage (respond message) = None).
Proof.
  split.
  - intros message rest Hascii; unfold respond.
    rewrite (byteLength_ascii _ Hascii), <- app_assoc, nextMessage_header.
    rewrite length_app.
    destruct (Nat.ltb_spec (List.length message + List.length rest)
                           (List.length message)); [lia|].
    rewrite firstn_app, firstn_all, Nat.sub_diag, firstn_O, app_nil_r.
    rewrite skipn_app, skipn_all, Nat.sub_diag; reflexivity.
  - intros message Hwide; unfold respond; rewrite nextMessage_header.
    apply byteLength_gt in Hwide.
    destruct (Nat.ltb_spec (List.length message) (byteLength message));
      [auto|lia].
Qed.

(** The two cases on a reply in ASCII and on one that holds U+00E9. *)
Lemma respond_read_back_witness :
  (forallb (fun c => (c <? 128)%N) (js "{}") = true
   /\ nextMessage (respond (js "{}") ++ js "Content") = Some (js "{}", js "Content"))
  /\ (existsb (fun c => negb (c <? 128)%N) [34; 233; 34]%N = true
      /\ nextMessage (respond [34; 233; 34]%N) = None).
Proof.
  split; (split; [reflexivity|]).
  - apply (proj1 respond_read_back); reflexivity.
  - apply (proj2 respond_read_back); reflexivity.
Defined.

Lemma skipn_shorter (A : Type) (k : nat) (l : list A) :
  0 < k <= List.length l -> List.length (skipn k l) < List.length l.
Proof. intros H; rewrite length_skipn; lia. Qed.

Lemma nextMessage_shorter (buffer rawMessage rest : jsstring) :
  nextMessage buffer = Some (rawMessage, rest) ->
  List.length rest < List.length buffer.
Proof.
  unfold nextMessage.
  destruct (lengthMatch buffer) as [digits|]; [|discriminate].
  destruct (indexOf (CRLF ++ CRLF) buffer) as [i|].
  - destruct (Nat.ltb_spec (List.length buffer) (i + 4 + parseInt digits))
      as [Hlt|Hge]; [discriminate|].
    intros Heq; injection Heq as _ Hrest; subst rest.
    apply (skipn_shorter _ (i + 4 + parseInt digits)); lia.
  - destruct (Nat.ltb_spec (List.length buffer) (3 + parseInt digits))
      as [Hlt|Hge]; [discriminate|].
    intros Heq; injection Heq as _ Hrest; subst rest.
    apply (skipn_shorter _ (3 + parseInt digits)); lia.
Qed.

(** X17. The loop of the reader ends: on every buffer it stops after at
    most [buffer.length] turns (each turn that takes a message shortens
    the buffer, by three code units at least), and the buffer it leaves
    holds no further message that could be taken. *)
Theorem readMessages_total (buffer : jsstring) :
  exists messages rest,
    readMessages (List.length buffer) buffer = Done (messages, rest)
    /\ nextMessage rest = None
    /\ List.length rest <= List.length buffer.
Proof.
  assert (H : forall fuel b,
             List.length b <= fuel ->
             exists messages rest,
               readMessages fuel b = Done (messages, rest)
               /\ nextMessage rest = None
               /\ List.length rest <= List.length b).
  { induction fuel as [|fuel IH]; intros b Hfuel; simpl;
      destruct (nextMessage b) as [[raw rest]|] eqn:E;
      try (exists [], b; auto; fail).
    - apply nextMessage_shorter in E; lia.
    - apply nextMessage_shorter in E as Hlt.
      destruct (IH rest) as (ms & left' & Hrun & Hstop & Hle); [lia|].
      rewrite Hrun; simpl; exists (raw :: ms), left'; repeat split; auto.
      lia. }
  apply H; auto.
Qed.




